(** * goleak: stack-dump parser, leak detector and dependency graph

    A shallow embedding of the goroutine leak detector vendored in this
    repository (package [stack]: [Stack], [stackParser], [parseFuncName],
    [parseGoStackHeader], [BuildGraph], [PrintGraph]; package [goleak]:
    [filterStacks], [Find], [FindAndPrettyPrint]) and the properties of
    its specification that were checked against it.

    Conventions.
    - A Go [string] / [[]byte] is a [string] (a sequence of 8-bit [ascii]).
    - A Go [int] is a 64-bit integer, modelled as [Z] within
      [[minInt, maxInt]]; the only place where the width matters is
      [strconv.Atoi], whose range check is written out.
    - A Go [map] is a [gmap]; a [map[K]struct{}] or [map[K]bool] that is
      only ever set to [true] is a [gset].  The order in which [range]
      walks a map is chosen by the runtime: it is an explicit parameter
      ([MapOrder]) of every function that ranges over a map.
    - A panic and a loop that never ends are explicit outcomes. *)

From Stdlib Require Import ZArith Lia Ascii String List Permutation DecimalString FunInd.
From stdpp Require Import base option list strings gmap sorting.

Local Open Scope string_scope.
Local Open Scope Z_scope.
Local Open Scope list_scope.

(** ** Characters and strings of the standard library *)

Definition LF : ascii := "010"%char.
Definition TAB : ascii := "009"%char.
Definition nl : string := String LF EmptyString.

Module Strings.

(** [len(s)] *)
Definition len (s : string) : nat := String.length s.

(** [s[n:]] for [n <= len(s)] *)
Fixpoint drop (n : nat) (s : string) : string :=
  match n, s with
  | O, _ => s
  | S n', String _ s' => drop n' s'
  | S _, EmptyString => EmptyString
  end.

(** [s[:n]] for [n <= len(s)] *)
Fixpoint take (n : nat) (s : string) : string :=
  match n, s with
  | O, _ => EmptyString
  | S n', String c s' => String c (take n' s')
  | S _, EmptyString => EmptyString
  end.

(** [strings.HasPrefix(s, prefix)] *)
Fixpoint HasPrefix (s prefix : string) {struct prefix} : bool :=
  match prefix with
  | EmptyString => true
  | String p prefix' =>
      match s with
      | EmptyString => false
      | String c s' => if Ascii.eqb c p then HasPrefix s' prefix' else false
      end
  end.

(** [strings.HasSuffix(s, suffix)]:
    [len(s) >= len(suffix) && s[len(s)-len(suffix):] == suffix] *)
Definition HasSuffix (s suffix : string) : bool :=
  (len suffix <=? len s)%nat && String.eqb (drop (len s - len suffix) s) suffix.

(** [strings.TrimPrefix(s, prefix)] *)
Definition TrimPrefix (s prefix : string) : string :=
  if HasPrefix s prefix then drop (len prefix) s else s.

(** [strings.TrimSuffix(s, suffix)] *)
Definition TrimSuffix (s suffix : string) : string :=
  if HasSuffix s suffix then take (len s - len suffix) s else s.

(** [strings.CutPrefix(s, prefix)] *)
Definition CutPrefix (s prefix : string) : string * bool :=
  if HasPrefix s prefix then (drop (len prefix) s, true) else (s, false).

(** [strings.Index(s, substr)]: the index of the first instance of
    [substr] in [s]; [None] stands for [-1]. *)
Fixpoint Index (s substr : string) : option nat :=
  if HasPrefix s substr then Some O
  else match s with
       | EmptyString => None
       | String _ s' => S <$> Index s' substr
       end.

(** [strings.LastIndexByte(s, c)]; [None] stands for [-1]. *)
Fixpoint LastIndexByte (s : string) (c : ascii) : option nat :=
  match s with
  | EmptyString => None
  | String a s' =>
      match LastIndexByte s' c with
      | Some i => Some (S i)
      | None => if Ascii.eqb a c then Some O else None
      end
  end.

(** [strings.SplitN(s, sep, n)] for [n > 0] and a separator that is
    not empty: at most [n] substrings, the last one being the
    unsplit remainder. *)
Fixpoint SplitN (s sep : string) (n : nat) : list string :=
  match n with
  | O => []
  | S O => [s]
  | S n' =>
      match Index s sep with
      | None => [s]
      | Some i => take i s :: SplitN (drop (i + len sep) s) sep n'
      end
  end.

End Strings.

Module Strconv.

Definition maxInt : Z := 2 ^ 63 - 1.
Definition minInt : Z := - 2 ^ 63.

Definition isDigit (c : ascii) : bool :=
  (48 <=? nat_of_ascii c)%nat && (nat_of_ascii c <=? 57)%nat.

Definition digitVal (c : ascii) : Z := Z.of_nat (nat_of_ascii c) - 48.

(** The value of a sequence of decimal digits, most significant
    first, continuing from [acc]; [None] on a byte that is no digit. *)
Fixpoint digits (acc : Z) (s : string) : option Z :=
  match s with
  | EmptyString => Some acc
  | String c s' =>
      if isDigit c then digits (acc * 10 + digitVal c) s' else None
  end.

(** [strconv.Atoi(s)] on a 64-bit platform: an optional sign, at
    least one decimal digit, nothing else, and a value that fits
    [int]; [None] stands for a non-nil error. *)
Definition Atoi (s : string) : option Z :=
  let '(neg, ds) :=
    match s with
    | String "-" r => (true, r)
    | String "+" r => (false, r)
    | _ => (false, s)
    end in
  match ds with
  | EmptyString => None
  | _ =>
      match digits 0 ds with
      | None => None
      | Some n =>
          let v := if neg then - n else n in
          if (minInt <=? v) && (v <=? maxInt) then Some v else None
      end
  end.

(** The [%d] verb of [fmt] on an [int]. *)
Definition Itoa (n : Z) : string := NilEmpty.string_of_int (Z.to_int n).

End Strconv.

(** ** Package [stack] *)

(** [sourceGoroutineRe = regexp.MustCompile(`goroutine (\d+)`)].
    The pattern is a literal followed by a greedy, non-empty run of
    ASCII digits, so its leftmost match is found by trying every
    position from the left. *)
Module sourceGoroutineRe.

Fixpoint takeDigits (s : string) : string :=
  match s with
  | EmptyString => EmptyString
  | String c s' => if Strconv.isDigit c then String c (takeDigits s') else EmptyString
  end.

(** A match that starts at the first byte of [s]: the submatch. *)
Definition matchAt (s : string) : option string :=
  if Strings.HasPrefix s "goroutine " then
    match takeDigits (Strings.drop 10 s) with
    | EmptyString => None
    | d => Some d
    end
  else None.

(** [sourceGoroutineRe.FindStringSubmatch(s)]: the text of the
    leftmost match and of its one group; [[]] stands for [nil]. *)
Fixpoint FindStringSubmatch (s : string) : list string :=
  match matchAt s with
  | Some d => ["goroutine " +:+ d; d]
  | None =>
      match s with
      | EmptyString => []
      | String _ s' => FindStringSubmatch s'
      end
  end.

End sourceGoroutineRe.

(** Errors.  The message of an error is kept as the structure that
    produced it, not as the formatted text. *)
#[warnings="-register-all"]
Inductive error : Type :=
| errorsNew (msg : string)                    (* errors.New(msg) *)
| errUnexpectedFormat (line : string)         (* "unexpected format: %q" *)
| errBadGoroutineID (part line : string)      (* "bad goroutine ID %q in line %q" *)
| errNoFunctionFound (line : string)          (* "no function found: %q" *)
| errWrap (msg : string) (e : error)          (* fmt.Errorf(msg + ": %w", e) *)
| errFormat (msg : string)                    (* fmt.Errorf(msg, ...) *)
| joinError (errs : list error).              (* errors.Join *)

(** [errors.Join(errs...)]: nil values are discarded, and the result
    is nil when every value is. *)
Definition errors_Join (errs : list (option error)) : option error :=
  match omap (fun e => e) errs with
  | [] => None
  | es => Some (joinError es)
  end.

Inductive result (A : Type) : Type :=
| Ok (a : A)
| Err (e : error).
Arguments Ok {A} a.
Arguments Err {A} e.

(** [Entry] represents a single entry in a goroutine's stack. *)
Record Entry : Type := mkEntry {
  FunctionCall : string;
  Location : string;
  IsSource : bool
}.

(** The zero value [Entry{}]. *)
Definition Entry_zero : Entry :=
  {| FunctionCall := EmptyString; Location := EmptyString; IsSource := false |}.

(** [Stack] represents a single goroutine's stack. *)
Record Stack : Type := mkStack {
  Stack_id : Z;
  Stack_state : string;
  firstFunction : string;
  allFunctions : gset string;
  fullStack : string;
  entries : list Entry
}.

Definition Stack_zero : Stack :=
  {| Stack_id := 0; Stack_state := EmptyString; firstFunction := EmptyString;
     allFunctions := ∅; fullStack := EmptyString; entries := [] |}.

Definition ID (s : Stack) : Z := Stack_id s.
Definition State (s : Stack) : string := Stack_state s.
Definition Full (s : Stack) : string := fullStack s.
Definition FirstFunction (s : Stack) : string := firstFunction s.
Definition HasFunction (s : Stack) (name : string) : bool :=
  bool_decide (name ∈ allFunctions s).

(** [SourceGoroutineID] returns the goroutine ID of the source
    goroutine, [-1] when there is none. *)
Fixpoint SourceGoroutineID_entries (es : list Entry) : Z :=
  match es with
  | [] => -1
  | entry :: es' =>
      if IsSource entry then
        let matches := sourceGoroutineRe.FindStringSubmatch (FunctionCall entry) in
        if (length matches =? 2)%nat then
          match Strconv.Atoi (default EmptyString (matches !! 1%nat)) with
          | Some id => id
          | None => SourceGoroutineID_entries es'
          end
        else SourceGoroutineID_entries es'
      else SourceGoroutineID_entries es'
  end.

Definition SourceGoroutineID (s : Stack) : Z :=
  SourceGoroutineID_entries (entries s).

(** [SourceEntry] returns the source entry of the stack. *)
Fixpoint SourceEntry_entries (es : list Entry) : Entry :=
  match es with
  | [] => Entry_zero
  | entry :: es' => if IsSource entry then entry else SourceEntry_entries es'
  end.

Definition SourceEntry (s : Stack) : Entry := SourceEntry_entries (entries s).

(** *** The line scanner *)

(** Modelled from the spec: the [scanner] type of the DumpScanner
    (its file is not among the sources).  It wraps the dump and
    exposes "advance to the next line", "current line" and "push back
    one line"; the pushback holds exactly one line. *)
Record scanner : Type := mkScanner {
  input : list string;     (* the lines not read yet *)
  current : string;        (* the line of the last successful Scan *)
  unscanned : bool         (* the one-line pushback is in use *)
}.

(** Modelled from the spec: how the DumpScanner splits the raw dump
    into logical lines.  Each line ends at a line feed, which is
    trimmed; a dump without trailing line feed is tolerated: what
    follows the last line feed is a line of its own unless it is
    empty.  There is no limit on the length of a line. *)
Fixpoint splitLines (line : string) (buf : string) : list string :=
  match buf with
  | EmptyString =>
      match line with
      | EmptyString => []
      | _ => [line]
      end
  | String c buf' =>
      if Ascii.eqb c LF then line :: splitLines EmptyString buf'
      else splitLines (line +:+ String c EmptyString) buf'
  end.

(** Modelled from the spec: [newScanner], a scanner at the start of
    the dump. *)
Definition newScanner (buf : string) : scanner :=
  {| input := splitLines EmptyString buf; current := EmptyString; unscanned := false |}.

(** A scanner over lines that are already split. *)
Definition scannerOf (lines : list string) : scanner :=
  {| input := lines; current := EmptyString; unscanned := false |}.

(** Modelled from the spec: [Scan] advances to the next line and
    reports whether there is one; after [Unscan] it yields the current
    line again. *)
Definition Scan (s : scanner) : bool * scanner :=
  if unscanned s then
    (true, {| input := input s; current := current s; unscanned := false |})
  else
    match input s with
    | [] => (false, s)
    | l :: ls => (true, {| input := ls; current := l; unscanned := false |})
    end.

(** Modelled from the spec: [Text], the current line as text. *)
Definition Text (s : scanner) : string := current s.

(** Modelled from the spec: [Bytes], the current line as raw bytes. *)
Definition Bytes (s : scanner) : string := current s.

(** Modelled from the spec: [Unscan] pushes the current line back. *)
Definition Unscan (s : scanner) : scanner :=
  {| input := input s; current := current s; unscanned := true |}.

(** Modelled from the spec: [Err], the read failure of the underlying
    byte stream.  Malformed content is no scanner error, and the
    stream here is a buffer in memory, which cannot fail. *)
Definition scanner_Err (s : scanner) : option error := None.

(** The lines the next calls of [Scan] will yield. *)
Definition pending (s : scanner) : list string :=
  if unscanned s then current s :: input s else input s.

(** *** The parser *)

(** [parseFuncName] parses a single function from the given line and
    reports whether the line was a "created by" line. *)
Definition parseFuncName (line : string) : result (string * bool) :=
  let '(name, creator) :=
    match Strings.CutPrefix line "created by " with
    | (after, true) =>
        match Strings.Index after " in goroutine" with
        | Some idx => (Strings.take idx after, true)
        | None => (after, true)
        end
    | (_, false) =>
        match Strings.LastIndexByte line "("%char with
        | Some idx => (Strings.take idx line, false)
        | None => (EmptyString, false)
        end
    end in
  match name with
  | EmptyString => Err (errNoFunctionFound line)
  | _ => Ok (name, creator)
  end.

(** [parseGoStackHeader] parses a stack header and returns the
    goroutine ID and the state. *)
Definition parseGoStackHeader (line : string) : result (Z * string) :=
  let line := Strings.TrimSuffix (Strings.TrimSuffix line ":") nl in
  match Strings.SplitN line " " 3 with
  | [_; part1; part2] =>
      match Strconv.Atoi part1 with
      | None => Err (errBadGoroutineID part1 line)
      | Some id =>
          Ok (id, Strings.TrimSuffix (Strings.TrimPrefix part2 "[") "]")
      end
  | _ => Err (errUnexpectedFormat line)
  end.

(** The local variables of [parseStack] that its loop updates. *)
Record locals : Type := mkLocals {
  l_firstFunction : string;
  l_fullStack : string;
  l_funcs : gset string;
  l_entries : list Entry;
  l_currentEntry : Entry
}.

Definition locals_init : locals :=
  {| l_firstFunction := EmptyString; l_fullStack := EmptyString; l_funcs := ∅;
     l_entries := []; l_currentEntry := Entry_zero |}.

(** How one iteration of the loop of [parseStack] ends. *)
Inductive iteration : Type :=
| Continue (scan : scanner) (v : locals)
| Break (scan : scanner) (v : locals)
| Return (scan : scanner) (e : error).

Definition isHeader (line : string) : bool := Strings.HasPrefix line "goroutine ".

Definition isElided (line : string) : bool :=
  Strings.HasPrefix line "..." && Strings.HasSuffix line " frames elided...".

Arguments isHeader : simpl never.
Arguments isElided : simpl never.

Definition startsWithTab (bs : string) : bool :=
  match bs with
  | String c _ => Ascii.eqb c TAB
  | EmptyString => false
  end.

(** [fullStack.WriteString(line); fullStack.WriteByte('\n')] *)
Definition writeLine (v : locals) (line : string) : locals :=
  {| l_firstFunction := l_firstFunction v;
     l_fullStack := l_fullStack v +:+ line +:+ nl;
     l_funcs := l_funcs v; l_entries := l_entries v;
     l_currentEntry := l_currentEntry v |}.

(** The statements that follow a successful [parseFuncName]: the call
    text of the current entry is set; a function that is no creator
    joins [funcs] and becomes [firstFunction] if there is none yet; a
    creator marks the current entry as source. *)
Definition recordCall (v : locals) (line funcName : string) (creator : bool) : locals :=
  {| l_firstFunction :=
       if creator then l_firstFunction v
       else if String.eqb (l_firstFunction v) EmptyString then funcName
            else l_firstFunction v;
     l_fullStack := l_fullStack v;
     l_funcs := if creator then l_funcs v else {[ funcName ]} ∪ l_funcs v;
     l_entries := l_entries v;
     l_currentEntry :=
       {| FunctionCall := line;
          Location := Location (l_currentEntry v);
          IsSource := if creator then true else IsSource (l_currentEntry v) |} |}.

(** The statements run on a location line [bs]: the current entry
    gets its location and is appended to [entries], and the line is
    written to [fullStack]. *)
Definition recordLocation (v : locals) (bs : string) : locals :=
  let cur := {| FunctionCall := FunctionCall (l_currentEntry v);
                Location := bs;
                IsSource := IsSource (l_currentEntry v) |} in
  {| l_firstFunction := l_firstFunction v;
     l_fullStack := l_fullStack v +:+ bs +:+ nl;
     l_funcs := l_funcs v;
     l_entries := l_entries v ++ [cur];
     l_currentEntry := cur |}.

(** The body of the loop of [parseStack], entered after [p.scan.Scan()]
    returned true. *)
Definition parseStack_iteration (scan : scanner) (v : locals) : iteration :=
  let line := Text scan in
  if isHeader line then Break (Unscan scan) v
  else
    let v := writeLine v line in
    if (Strings.len line =? 0)%nat then Continue scan v
    else if isElided line then Continue scan v
    else
      match parseFuncName line with
      | Err e => Return scan (errWrap "parse function" e)
      | Ok (funcName, creator) =>
          let v := recordCall v line funcName creator in
          let '(more, scan) := Scan scan in
          let '(scan, v) :=
            if more then
              let bs := Bytes scan in
              if startsWithTab bs then (scan, recordLocation v bs)
              else (Unscan scan, v)
            else (scan, v) in
          if creator then Break scan v else Continue scan v
      end.

(** The loop [for p.scan.Scan() { ... }] of [parseStack].  Every
    iteration takes at least one line from the scanner, so [fuel]
    larger than the number of pending lines is never used up
    ([parseStack_loop_lines]). *)
Fixpoint parseStack_loop (fuel : nat) (scan : scanner) (v : locals)
  : option (scanner * result locals) :=
  match fuel with
  | O => None
  | S fuel' =>
      let '(more, scan) := Scan scan in
      if more then
        match parseStack_iteration scan v with
        | Continue scan v => parseStack_loop fuel' scan v
        | Break scan v => Some (scan, Ok v)
        | Return scan e => Some (scan, Err e)
        end
      else Some (scan, Ok v)
  end.

(** [parseStack] parses a single stack trace from the scanner; [line]
    is the first line of the stack trace. *)
Definition parseStack (fuel : nat) (scan : scanner) (line : string)
  : option (scanner * result Stack) :=
  match parseGoStackHeader line with
  | Err e => Some (scan, Err (errWrap "parse header" e))
  | Ok (id, state) =>
      match parseStack_loop fuel scan locals_init with
      | None => None
      | Some (scan, Err e) => Some (scan, Err e)
      | Some (scan, Ok v) =>
          Some (scan, Ok {| Stack_id := id; Stack_state := state;
                            firstFunction := l_firstFunction v;
                            allFunctions := l_funcs v;
                            fullStack := l_fullStack v;
                            entries := l_entries v |})
      end
  end.

(** The state of a [stackParser]. *)
Record stackParser : Type := mkStackParser {
  scan : scanner;
  stacks : list Stack;
  errors : list error
}.

Definition newStackParser (buf : string) : stackParser :=
  {| scan := newScanner buf; stacks := []; errors := [] |}.

(** The loop of [Parse]. *)
Fixpoint Parse_loop (fuel : nat) (p : stackParser) : option stackParser :=
  match fuel with
  | O => None
  | S fuel' =>
      let '(more, sc) := Scan (scan p) in
      if more then
        let line := Text sc in
        if isHeader line then
          match parseStack (S (length (pending sc))) sc line with
          | None => None
          | Some (sc, Err e) =>
              Parse_loop fuel' {| scan := sc; stacks := stacks p; errors := errors p ++ [e] |}
          | Some (sc, Ok stack) =>
              Parse_loop fuel' {| scan := sc; stacks := stacks p ++ [stack]; errors := errors p |}
          end
        else Parse_loop fuel' {| scan := sc; stacks := stacks p; errors := errors p |}
      else Some {| scan := sc; stacks := stacks p; errors := errors p |}
  end.

(** [(p *stackParser) Parse()]; [None] would be a run that does not
    end, which never happens ([ParseStack_total]). *)
Definition stackParser_Parse (p : stackParser) : option (list Stack * option error) :=
  match Parse_loop (S (length (pending (scan p)))) p with
  | None => None
  | Some p =>
      Some (stacks p, errors_Join ((Some <$> errors p) ++ [scanner_Err (scan p)]))
  end.

(** [ParseStack] parses a stack trace from the given buffer. *)
Definition ParseStack (buf : string) : option (list Stack * option error) :=
  stackParser_Parse (newStackParser buf).

(** [Parse] over a dump given as its lines. *)
Definition ParseLines (lines : list string) : option (list Stack * option error) :=
  stackParser_Parse {| scan := scannerOf lines; stacks := []; errors := [] |}.

(** *** Outcomes of code that can panic or run forever *)

Inductive outcome (A : Type) : Type :=
| Returned (a : A)
| Panicked (msg : string)
| OutOfFuel.
Arguments Returned {A} a.
Arguments Panicked {A} msg.
Arguments OutOfFuel {A}.

(** *** The dependency graph (util.go) *)

(** The order in which the runtime walks a map: [rangeOrder site keys]
    is the sequence in which the [range] statement number [site]
    yields the keys [keys] of its map.  The language leaves the order
    open; every order is a rearrangement of the keys. *)
Record MapOrder : Type := mkMapOrder {
  rangeOrder : nat -> list Z -> list Z
}.

Definition MapOrder_ok (ρ : MapOrder) : Prop :=
  ∀ site ks, rangeOrder ρ site ks ≡ₚ ks.

Definition rangeKeys {V : Type} (ρ : MapOrder) (site : nat) (m : gmap Z V) : list Z :=
  rangeOrder ρ site (map fst (map_to_list m)).

(** [sort.Ints] *)
Definition sort_Ints (a : list Z) : list Z := merge_sort Z.le a.

(** The first loop of [BuildGraph]: collect all nodes (both items and
    sources) and append every item to the children of its source. *)
Definition BuildGraph_collect (ρ : MapOrder) (mapping : gmap Z Z)
  : gmap Z (list Z) * gset Z :=
  foldl (fun '((graph, allNodes) : gmap Z (list Z) * gset Z) item =>
           match mapping !! item with
           | Some source =>
               (<[source := default [] (graph !! source) ++ [item]]> graph,
                {[source]} ∪ ({[item]} ∪ allNodes))
           | None => (graph, allNodes)
           end)
        (∅, ∅) (rangeKeys ρ 0 mapping).

(** The second loop: every node is in the graph, with no children if
    it had no entry. *)
Definition BuildGraph_fill (ρ : MapOrder) (graph : gmap Z (list Z)) (allNodes : gset Z)
  : gmap Z (list Z) :=
  foldl (fun (graph : gmap Z (list Z)) node =>
           match graph !! node with
           | Some _ => graph
           | None => <[node := []]> graph
           end)
        graph (rangeOrder ρ 1 (elements allNodes)).

(** The third loop: the children of every node are sorted in place. *)
Definition BuildGraph_sort (ρ : MapOrder) (graph : gmap Z (list Z)) : gmap Z (list Z) :=
  foldl (fun (graph : gmap Z (list Z)) node => alter sort_Ints node graph)
        graph (rangeKeys ρ 2 graph).

(** [BuildGraph] constructs the graph from a mapping of item to
    source, including orphan nodes. *)
Definition BuildGraph (ρ : MapOrder) (mapping : gmap Z Z) : gmap Z (list Z) :=
  let '(graph, allNodes) := BuildGraph_collect ρ mapping in
  BuildGraph_sort ρ (BuildGraph_fill ρ graph allNodes).

(** The first loop of [findRoots]: the nodes that are a child. *)
Definition findRoots_isChild (ρ : MapOrder) (graph : gmap Z (list Z)) : gset Z :=
  foldl (fun (isChild : gset Z) node =>
           foldl (fun (isChild : gset Z) child => {[child]} ∪ isChild) isChild
                 (default [] (graph !! node)))
        ∅ (rangeKeys ρ 3 graph).

(** [findRoots]: the nodes that are no child of any node, in the
    order in which the map is walked. *)
Definition findRoots (ρ : MapOrder) (graph : gmap Z (list Z)) : list Z :=
  let isChild := findRoots_isChild ρ graph in
  foldl (fun (roots : list Z) node =>
           if bool_decide (node ∈ isChild) then roots else roots ++ [node])
        [] (rangeKeys ρ 4 graph).

Definition lastBranch : string := "└── ".
Definition midBranch : string := "├── ".
Definition lastIndent : string := "    ".
Definition midIndent : string := "│   ".

(** The loop over the children in [printSubGraph]: [print] prints the
    subgraph of a child, the last of the children distinctly. *)
Fixpoint printChildren
    (print : string -> Z -> bool -> gset Z -> option (string * gset Z))
    (last : nat) (i : nat) (children : list Z) (buff : string) (visited : gset Z)
  : option (string * gset Z) :=
  match children with
  | [] => Some (buff, visited)
  | child :: children' =>
      match print buff child (i =? last)%nat visited with
      | None => None
      | Some (buff, visited) => printChildren print last (S i) children' buff visited
      end
  end.

(** [printSubGraph]: [fuel] bounds the depth of the recursion; [None]
    is a recursion deeper than [fuel].  The result is the text
    appended to [buff] so far and the updated [visited]. *)
Fixpoint printSubGraph (fuel : nat) (buff : string) (node : Z)
    (graph : gmap Z (list Z)) (prefix : string) (isLast : bool)
    (defs : gmap Z Entry) (visited : gset Z) : option (string * gset Z) :=
  match fuel with
  | O => None
  | S fuel' =>
      let visited := {[node]} ∪ visited in
      let call := FunctionCall (default Entry_zero (defs !! node)) in
      let line branch :=
        prefix +:+ branch +:+ Strconv.Itoa node +:+ " (" +:+ call +:+ ")" +:+ nl in
      let '(buff, prefix) :=
        if isLast then (buff +:+ line lastBranch, prefix +:+ lastIndent)
        else (buff +:+ line midBranch, prefix +:+ midIndent) in
      match graph !! node with
      | Some children =>
          printChildren
            (fun buff child isLast visited =>
               printSubGraph fuel' buff child graph prefix isLast defs visited)
            (length children - 1) O children buff visited
      | None => Some (buff, visited)
      end
  end.

(** A loop of [PrintGraph] over [nodes]: the subgraph of every node
    is printed, but for [check] only when the node is not visited
    yet. *)
Definition PrintGraph_each (fuel : nat) (graph : gmap Z (list Z)) (defs : gmap Z Entry)
    (check : bool) (nodes : list Z) (st : option (string * gset Z))
  : option (string * gset Z) :=
  foldl (fun st node =>
           match st with
           | None => None
           | Some (buff, visited) =>
               if check && bool_decide (node ∈ visited) then Some (buff, visited)
               else printSubGraph fuel buff node graph EmptyString true defs visited
           end) st nodes.

(** [PrintGraph] prints the graph in a tree-like structure, including
    orphan nodes: first every root and its subgraph, then every node
    that is not visited yet as a new root. *)
Definition PrintGraph (ρ : MapOrder) (fuel : nat) (buff : string)
    (graph : gmap Z (list Z)) (defs : gmap Z Entry) : option string :=
  let roots := findRoots ρ graph in
  let st := PrintGraph_each fuel graph defs false roots (Some (buff, ∅)) in
  fst <$> PrintGraph_each fuel graph defs true (rangeKeys ρ 5 graph) st.

(** *** Rendering of a stack *)

(** The colours of [aurora] that the package uses: each decorates a
    finished text. *)
Record aurora : Type := mkAurora {
  BrightBlue : string -> string;
  BrightYellow : string -> string;
  BrightRed : string -> string;
  BrightGreen : string -> string;
  BrightMagenta : string -> string
}.

(** [String] returns a string representation of the stack. *)
Definition Stack_String (s : Stack) : string :=
  "Goroutine " +:+ Strconv.Itoa (Stack_id s) +:+ " in state " +:+ Stack_state s +:+
  ", with " +:+ firstFunction s +:+ " on top of the stack:" +:+ nl +:+ Full s.

(** The [%s] verb of [fmt] on a [[]Stack]. *)
Definition Stacks_String (stacks : list Stack) : string :=
  "[" +:+ String.concat " " (Stack_String <$> stacks) +:+ "]".

Section Rendering.

Context (Colors : aurora).
(** [strings.TrimSpace] *)
Context (TrimSpace : string -> string).

(** [PrettyPrint] generates a formatted string representation of the
    stack and uses the given filters to highlight matching entries.
    Indexing the submatches of a call text without match panics. *)
Definition PrettyPrint (s : Stack) (filter : list (Stack -> bool)) : outcome string :=
  let source := List.find IsSource (entries s) in
  let buff := nl in
  let buff := buff +:+ BrightBlue Colors "Goroutine ID" +:+ ": " +:+
              BrightYellow Colors (Strconv.Itoa (Stack_id s)) +:+ nl in
  let buff := buff +:+ BrightBlue Colors "State" +:+ ": " +:+
              BrightYellow Colors (Stack_state s) +:+ nl in
  let head : outcome string :=
    match source with
    | Some source =>
        match sourceGoroutineRe.FindStringSubmatch (FunctionCall source) !! 1%nat with
        | None => Panicked "index out of range [1] with length 0"
        | Some id =>
            Returned
              (buff +:+ BrightBlue Colors "Source Goroutine ID" +:+ ": " +:+
                 BrightRed Colors id +:+ nl
               +:+ BrightBlue Colors "Created At" +:+ ": " +:+
                 BrightRed Colors (Strings.TrimPrefix (FunctionCall source) "created by ") +:+ nl
               +:+ BrightBlue Colors "Location" +:+ ": " +:+
                 BrightRed Colors (TrimSpace (Location source)) +:+ nl)
        end
    | None =>
        Returned
          (buff +:+ BrightBlue Colors "First Function" +:+ ": " +:+
             BrightRed Colors (firstFunction s) +:+ nl)
    end in
  match head with
  | Returned buff =>
      let buff := buff +:+ BrightBlue Colors "Full Stack" +:+ ": " +:+ nl +:+ nl in
      let buff :=
        foldl (fun buff entry =>
                 let matched := existsb (fun f => f s) filter in
                 if matched then
                   buff +:+ BrightGreen Colors (FunctionCall entry) +:+ nl
                        +:+ BrightGreen Colors (Location entry) +:+ nl
                 else
                   buff +:+ FunctionCall entry +:+ nl +:+ Location entry +:+ nl)
              buff (entries s) in
      Returned (buff +:+ nl)
  | Panicked msg => Panicked msg
  | OutOfFuel => OutOfFuel
  end.

End Rendering.

(** ** Package [goleak] *)

(** What a detection call does to the world around it. *)
Inductive event : Type :=
| evStack (all : bool)     (* runtime.Stack(buf, all): a sample of the live goroutines *)
| evRetry (i : nat).       (* opts.retry(i): the retry policy consulted, and its sleep *)

(** The host runtime: the dump that [runtime.Stack(buf, all)] yields
    after the events so far. *)
Record Host : Type := mkHost {
  runtime_Stack : bool -> list event -> string
}.

(** Code with effects: it extends the trace of events and returns,
    panics, or does not end. *)
Definition M (A : Type) : Type := list event -> list event * outcome A.

Definition ret {A : Type} (a : A) : M A := fun tr => (tr, Returned a).

Definition bind {A B : Type} (m : M A) (k : A -> M B) : M B :=
  fun tr =>
    match m tr with
    | (tr', Returned a) => k a tr'
    | (tr', Panicked msg) => (tr', Panicked msg)
    | (tr', OutOfFuel) => (tr', OutOfFuel)
    end.

Definition panic {A : Type} (msg : string) : M A := fun tr => (tr, Panicked msg).
Definition diverge {A : Type} : M A := fun tr => (tr, OutOfFuel).
Definition lift {A : Type} (o : outcome A) : M A := fun tr => (tr, o).

Notation "'let*' x ':=' m 'in' k" := (bind m (fun x => k))
  (at level 10, x name, m at level 100, k at level 200).
Notation "'let*' ' pat ':=' m 'in' k" := (bind m (fun pat => k))
  (at level 10, pat strict pattern, m at level 100, k at level 200).

(** Modelled from the spec: the configuration of a detection call
    ([opts]; its file is not among the sources).  It holds the ignore
    predicates, the retry policy (attempt index to "continue"), the
    cleanup callback and the pretty flag. *)
Record opts : Type := mkOpts {
  filters : list (Stack -> bool);
  retryPolicy : nat -> bool;
  cleanup : option (Z -> unit);
  pretty : bool
}.

(** Modelled from the spec: an option is a mutator of the
    configuration. *)
Definition Option : Type := opts -> opts.

(** Modelled from the spec: the cleanup-callback option. *)
Definition Cleanup (cleanupProc : Z -> unit) : Option :=
  fun o => {| filters := filters o; retryPolicy := retryPolicy o;
              cleanup := Some cleanupProc; pretty := pretty o |}.

(** Modelled from the spec: the option to ignore stacks by their
    top-level function name. *)
Definition IgnoreTopFunction (f : string) : Option :=
  fun o => {| filters := filters o ++ [fun s => String.eqb (FirstFunction s) f];
              retryPolicy := retryPolicy o; cleanup := cleanup o; pretty := pretty o |}.

(** Modelled from the spec: [buildOpts] applies the options in the
    order given to the default configuration. *)
Definition buildOpts (defaults : opts) (options : list Option) : opts :=
  foldl (fun o option => option o) defaults options.

(** Modelled from the spec: [opts.filter(s)], the predicates are tried
    in the order added and the first match decides that [s] is
    ignored. *)
Definition opts_filter (o : opts) (s : Stack) : bool :=
  existsb (fun f => f s) (filters o).

(** Modelled from the spec: [opts.retry(i)] consults the retry policy
    with the attempt index (and sleeps as the policy says). *)
Definition opts_retry (o : opts) (i : nat) : M bool :=
  fun tr => (tr ++ [evRetry i], Returned (retryPolicy o i)).

(** [filterStacks] filters any stacks excluded by the given opts. *)
Definition filterStacks (stacks : list Stack) (skipID : Z) (o : opts) : list Stack :=
  List.filter (fun s => negb (ID s =? skipID) && negb (opts_filter o s)) stacks.

Section Detection.

Context (host : Host) (Colors : aurora) (TrimSpace : string -> string).
(** [fmt.Errorf(format)] without operands: the text of the error. *)
Context (Sprintf0 : string -> string).
Context (defaults : opts).

Definition _defaultBufferSize : Z := 64 * 1024.

(** The loop of [getStackBuffer], with a buffer of [i] bytes:
    [runtime.Stack] writes the dump into the buffer, truncated to its
    size, and returns the number of bytes written; the buffer is
    doubled until the dump is shorter than the buffer. *)
Fixpoint getStackBuffer_loop (fuel : nat) (i : Z) (all : bool) : M string :=
  match fuel with
  | O => diverge
  | S fuel' =>
      fun tr =>
        let dump := runtime_Stack host all tr in
        let n := Z.min (Z.of_nat (Strings.len dump)) i in
        let tr := tr ++ [evStack all] in
        if n <? i then (tr, Returned (Strings.take (Z.to_nat n) dump))
        else getStackBuffer_loop fuel' (i * 2) all tr
  end.

Definition getStackBuffer (fuel : nat) (all : bool) : M string :=
  getStackBuffer_loop fuel _defaultBufferSize all.

Definition getStacks (fuel : nat) (all : bool) : M (list Stack) :=
  let* trace := getStackBuffer fuel all in
  match ParseStack trace with
  | None => diverge
  | Some (stacks, Some err) => panic "Failed to parse stack trace"
  | Some (stacks, None) => ret stacks
  end.

(** [All] returns the stacks for all running goroutines. *)
Definition All (fuel : nat) : M (list Stack) := getStacks fuel true.

(** [Current] returns the stack for the current goroutine. *)
Definition Current (fuel : nat) : M Stack :=
  let* stacks := getStacks fuel false in
  match stacks with
  | s :: _ => ret s
  | [] => panic "index out of range [0] with length 0"
  end.

(** The loop [for i := 0; retry; i++] of [Find] and of
    [FindAndPrettyPrint], from attempt [i] on: [None] when no stack
    remained (the function returns nil), the last stacks when the
    policy ended the retries.  [fuel] bounds the attempts (and, in
    every sample, the doublings of the buffer). *)
Fixpoint Find_loop (fuel : nat) (o : opts) (cur : Z) (i : nat)
  : M (option (list Stack)) :=
  match fuel with
  | O => diverge
  | S fuel' =>
      let* all := All fuel in
      let stacks := filterStacks all cur o in
      match stacks with
      | [] => ret None
      | _ =>
          let* retry := opts_retry o i in
          if retry then Find_loop fuel' o cur (S i) else ret (Some stacks)
      end
  end.

Definition errCleanup : error :=
  errorsNew "Cleanup can only be passed to VerifyNone or VerifyTestMain".

(** [Find] looks for extra goroutines, and returns a descriptive
    error if any are found. *)
Definition Find (fuel : nat) (options : list Option) : M (option error) :=
  let* cur := Current fuel in
  let cur := ID cur in
  let o := buildOpts defaults options in
  match cleanup o with
  | Some _ => ret (Some errCleanup)
  | None =>
      let* r := Find_loop fuel o cur 0 in
      match r with
      | None => ret None
      | Some stacks =>
          ret (Some (errFormat ("found unexpected goroutines:" +:+ nl +:+
                                Stacks_String stacks)))
      end
  end.

(** [FindAndPrettyPrint] looks for extra goroutines, and returns a
    descriptive error with a graph of the goroutines if any are
    found.  [fuel] also bounds the depth of the recursion of
    [printSubGraph]. *)
Definition FindAndPrettyPrint (ρ : MapOrder) (fuel : nat) (options : list Option)
  : M (option error) :=
  let* cur := Current fuel in
  let cur := ID cur in
  let o := buildOpts defaults options in
  match cleanup o with
  | Some _ => ret (Some errCleanup)
  | None =>
      let* r := Find_loop fuel o cur 0 in
      match r with
      | None => ret None
      | Some [] => ret None
      | Some stacks =>
          let* '(dependency, defs, sb) :=
            foldl (fun (acc : M (gmap Z Z * gmap Z Entry * string)) s =>
                     let* '(dependency, defs, sb) := acc in
                     let* text := lift (PrettyPrint Colors TrimSpace s (filters o)) in
                     ret (<[ID s := SourceGoroutineID s]> dependency,
                          <[ID s := SourceEntry s]> defs,
                          sb +:+ text))
                  (ret (∅, ∅, EmptyString)) stacks in
          let g := "[*] found unexpected goroutines:" +:+ nl in
          let g := g +:+ "[-] " +:+ BrightBlue Colors "Dependency Graph" +:+ ":" +:+ nl +:+ nl in
          let graph := BuildGraph ρ dependency in
          match PrintGraph ρ fuel g graph defs with
          | None => diverge
          | Some g =>
              let g := g +:+ nl +:+ "-> " +:+ BrightMagenta Colors "Goroutines" +:+ ":" +:+ nl +:+ nl in
              let g := g +:+ sb in
              ret (Some (errFormat (Sprintf0 g)))
          end
      end
  end.

End Detection.

(** ** The loop of [parseStack] over the pending lines

    What the loop of [parseStack] does, told on the lines that the
    scanner has pending instead of on the scanner: the lines left
    pending when the loop ends, and its result.  It is the loop itself
    ([parseStack_loop_lines]); the proofs about whole dumps go through
    it. *)
Function parseStack_lines (lines : list string) (v : locals) {struct lines}
  : list string * result locals :=
  match lines with
  | [] => ([], Ok v)
  | line :: rest =>
      if isHeader line then (lines, Ok v)
      else if (Strings.len line =? 0)%nat then parseStack_lines rest (writeLine v line)
      else if isElided line then parseStack_lines rest (writeLine v line)
      else
        match parseFuncName line with
        | Err e => (rest, Err (errWrap "parse function" e))
        | Ok (funcName, creator) =>
            match rest with
            | [] => ([], Ok (recordCall (writeLine v line) line funcName creator))
            | bs :: rest' =>
                if startsWithTab bs then
                  if creator then
                    (rest', Ok (recordLocation
                                  (recordCall (writeLine v line) line funcName creator) bs))
                  else
                    parseStack_lines rest'
                      (recordLocation
                         (recordCall (writeLine v line) line funcName creator) bs)
                else
                  if creator then
                    (rest, Ok (recordCall (writeLine v line) line funcName creator))
                  else
                    parseStack_lines rest
                      (recordCall (writeLine v line) line funcName creator)
            end
        end
  end.

(** The call lines of a stack body: the lines that the loop of
    [parseStack] hands to [parseFuncName], in their order.  The loop
    stops at a header line, skips empty and elided lines, and takes
    the line after a call line as its location, not as a call line,
    when it begins with a tab; it ends at the first line that is no
    function and after a creator line. *)
Function callLines (lines : list string) {struct lines} : list string :=
  match lines with
  | [] => []
  | line :: rest =>
      if isHeader line then []
      else if (Strings.len line =? 0)%nat then callLines rest
      else if isElided line then callLines rest
      else
        match parseFuncName line with
        | Err _ => [line]
        | Ok (_, creator) =>
            match rest with
            | [] => [line]
            | bs :: rest' =>
                if startsWithTab bs then
                  if creator then [line] else line :: callLines rest'
                else
                  if creator then [line] else line :: callLines rest
            end
        end
  end.

(** The text that the loop writes for the lines it takes. *)
Fixpoint textOf (lines : list string) : string :=
  match lines with
  | [] => EmptyString
  | line :: rest => line +:+ nl +:+ textOf rest
  end.

(** The header-delimited parts of a dump: the lines before the first
    header line, and then every header line with the lines that follow
    it up to the next header line. *)
Fixpoint chunks (lines : list string) : list string * list (string * list string) :=
  match lines with
  | [] => ([], [])
  | line :: rest =>
      let '(pre, cs) := chunks rest in
      if isHeader line then ([], (line, pre) :: cs) else (line :: pre, cs)
  end.

(** A part of a dump parsed on its own. *)
Definition parseChunk (c : string * list string) : option (scanner * result Stack) :=
  parseStack (S (length c.2)) (scannerOf c.2) c.1.

Definition stackOf (r : result Stack) : option Stack :=
  match r with Ok s => Some s | Err _ => None end.

Definition errorOf (r : result Stack) : option error :=
  match r with Ok _ => None | Err e => Some e end.

(** What [parseStack] returns for the header [line] when [lines] are
    pending, and the lines it leaves pending, told with
    [parseStack_lines] ([parseStack_result]). *)
Definition stackResult (line : string) (lines : list string) : result Stack :=
  match parseGoStackHeader line with
  | Err e => Err (errWrap "parse header" e)
  | Ok (id, state) =>
      match (parseStack_lines lines locals_init).2 with
      | Err e => Err e
      | Ok v => Ok {| Stack_id := id; Stack_state := state;
                      firstFunction := l_firstFunction v;
                      allFunctions := l_funcs v;
                      fullStack := l_fullStack v;
                      entries := l_entries v |}
      end
  end.

Definition stackRest (line : string) (lines : list string) : list string :=
  match parseGoStackHeader line with
  | Err _ => lines
  | Ok _ => (parseStack_lines lines locals_init).1
  end.

(** ** Examples and auxiliary notions *)

(** A source entry, if there is one, is the last entry. *)
Definition sourceLast (es : list Entry) : Prop :=
  ∀ i e, es !! i = Some e → IsSource e = true → S i = length es.

(** Example dumps: one stack with an ordinary frame; one stack whose
    creator is named like one of its own frames. *)
Definition dump_one_frame : string :=
  "goroutine 1 [running]:" +:+ nl +:+
  "main.foo()" +:+ nl +:+
  String TAB "/a/b.go:10 +0x1" +:+ nl.

Definition dump_worker : string :=
  "goroutine 2 [running]:" +:+ nl +:+
  "main.worker()" +:+ nl +:+
  String TAB "/a/b.go:10 +0x1" +:+ nl +:+
  "created by main.worker in goroutine 1" +:+ nl +:+
  String TAB "/a/b.go:20 +0x2" +:+ nl.

Definition stacksOf (buf : string) : list Stack :=
  match ParseStack buf with
  | Some (stacks, _) => stacks
  | None => []
  end.

Definition dump_no_location : string :=
  "goroutine 1 [running]:" +:+ nl +:+
  "main.foo()" +:+ nl.

Definition dump_creator_without_goroutine : string :=
  "goroutine 5 [select]:" +:+ nl +:+
  "created by main.spawn" +:+ nl +:+
  String TAB "/a/b.go:20 +0x2" +:+ nl.

(** Two ways in which the runtime may walk the maps. *)
Definition orderAsListed : MapOrder := {| rangeOrder := fun _ ks => ks |}.
Definition orderReversed : MapOrder := {| rangeOrder := fun _ ks => rev ks |}.

(** Goroutines 7 and 8, created by goroutines 1 and 2. *)
Definition mapping_two_roots : gmap Z Z := <[7 := 1]> (<[8 := 2]> ∅).

(** Goroutines 1 and 2, each recorded as the creator of the other. *)
Definition mapping_cycle : gmap Z Z := <[1 := 2]> (<[2 := 1]> ∅).

(** The graph of [mapping_cycle]. *)
Definition graph_cycle : gmap Z (list Z) := <[1 := [2]]> (<[2 := [1]]> ∅).

(** A host whose dumps hold the one goroutine that runs the detection;
    colours that leave the text as it is; defaults without filters,
    retries and cleanup. *)
Definition host_one_goroutine : Host :=
  {| runtime_Stack := fun _ _ => dump_one_frame |}.

Definition noColors : aurora :=
  {| BrightBlue := fun s => s; BrightYellow := fun s => s; BrightRed := fun s => s;
     BrightGreen := fun s => s; BrightMagenta := fun s => s |}.

Definition defaults_plain : opts :=
  {| filters := []; retryPolicy := fun _ => false; cleanup := None; pretty := false |}.

(** A creator line as the runtime prints it. *)
Definition creatorLine (X G : string) : string :=
  "created by " +:+ X +:+ " in goroutine " +:+ G.

(** [s] consists of decimal digits. *)
Fixpoint allDigits (s : string) : bool :=
  match s with
  | EmptyString => true
  | String c s' => Strconv.isDigit c && allDigits s'
  end.

(** A stack body of ordinary frames: blank lines, elision markers, and
    call lines that are no creator lines, each followed by its
    location line. *)
Function plainFrames (lines : list string) {struct lines} : bool :=
  match lines with
  | [] => true
  | line :: rest =>
      if isHeader line then false
      else if (Strings.len line =? 0)%nat then plainFrames rest
      else if isElided line then plainFrames rest
      else
        match parseFuncName line with
        | Ok (_, false) =>
            match rest with
            | bs :: rest' => if startsWithTab bs then plainFrames rest' else false
            | [] => false
            end
        | _ => false
        end
  end.

Definition dump_spawn : string :=
  "goroutine 1 [running]:" +:+ nl +:+
  "main.foo()" +:+ nl +:+
  String TAB "/a/b.go:10 +0x1" +:+ nl +:+
  "goroutine 2 [chan receive]:" +:+ nl +:+
  "created by main.spawn in goroutine 1" +:+ nl +:+
  String TAB "/a/b.go:20 +0x2" +:+ nl.

Definition dump_mixed : string :=
  "goroutine 1 [running]:" +:+ nl +:+
  "main.foo()" +:+ nl +:+
  String TAB "/a/b.go:10 +0x1" +:+ nl +:+
  "goroutine x [running]:" +:+ nl +:+
  "main.lost()" +:+ nl +:+
  String TAB "/a/b.go:11 +0x1" +:+ nl +:+
  "goroutine 3 [select]:" +:+ nl +:+
  "not a call line" +:+ nl +:+
  "goroutine 4 [chan receive]:" +:+ nl +:+
  "main.bar()" +:+ nl +:+
  String TAB "/a/b.go:12 +0x1" +:+ nl.

Definition dump_creator_named_goroutine : string :=
  "goroutine 2 [select]:" +:+ nl +:+
  "created by goroutine 9 in goroutine 1" +:+ nl +:+
  String TAB "/a/b.go:20 +0x2" +:+ nl.

Definition dump_creator_id_too_large : string :=
  "goroutine 2 [select]:" +:+ nl +:+
  "created by main.spawn in goroutine 9223372036854775808" +:+ nl +:+
  String TAB "/a/b.go:20 +0x2" +:+ nl.

(** A graph is ranked when every child has a smaller rank than its
    parent; then no node is among its own descendants. *)
Definition ranked (rank : Z -> nat) (graph : gmap Z (list Z)) : Prop :=
  ∀ node children child,
    graph !! node = Some children → child ∈ children → (rank child < rank node)%nat.

(** The items of [items] whose source is [node]. *)
Definition childrenIn (mapping : gmap Z Z) (node : Z) (items : list Z) : list Z :=
  filter (fun item => mapping !! item = Some node) items.

(** The nodes of a mapping: its items and their sources. *)
Definition nodesOf (mapping : gmap Z Z) : gset Z :=
  dom mapping ∪ map_img mapping.

(** [s] holds no space. *)
Fixpoint noSpace (s : string) : bool :=
  match s with
  | EmptyString => true
  | String c s' => negb (Ascii.eqb c " ") && noSpace s'
  end.

(** [visited] holds the children in [graph] of each of its nodes, but
    for the nodes of [P]. *)
Definition closedExcept (graph : gmap Z (list Z)) (P : Z → Prop) (visited : gset Z) : Prop :=
  ∀ node, node ∈ visited → ¬ P node →
          ∀ children child, graph !! node = Some children → child ∈ children →
                            child ∈ visited.

(** The state of the locals of [parseStack] whenever its loop starts
    an iteration: the current entry is no source entry; the empty name
    is no function; [firstFunction] is empty when there is no function
    yet, else one of them; and every entry so far is an ordinary call
    with its location. *)
Definition goodLocals (v : locals) : Prop :=
  IsSource (l_currentEntry v) = false
  ∧ (EmptyString ∉ l_funcs v)
  ∧ (l_firstFunction v = EmptyString → l_funcs v = ∅)
  ∧ (l_firstFunction v ≠ EmptyString → l_firstFunction v ∈ l_funcs v)
  ∧ ∀ e, e ∈ l_entries v →
         IsSource e = false ∧ startsWithTab (Location e) = true
         ∧ ∃ name, parseFuncName (FunctionCall e) = Ok (name, false) ∧ name ∈ l_funcs v.

(** The state of the locals when the loop of [parseStack] has ended. *)
Definition goodParsed (v : locals) : Prop :=
  (EmptyString ∉ l_funcs v)
  ∧ (l_firstFunction v = EmptyString → l_funcs v = ∅)
  ∧ (l_firstFunction v ≠ EmptyString → l_firstFunction v ∈ l_funcs v)
  ∧ ∀ e, e ∈ l_entries v →
         startsWithTab (Location e) = true
         ∧ ∃ name, parseFuncName (FunctionCall e) = Ok (name, IsSource e)
                   ∧ (IsSource e = false → name ∈ l_funcs v).

(** The number of spaces of [s]. *)
Fixpoint countSpaces (s : string) : nat :=
  match s with
  | EmptyString => O
  | String c s' => if Ascii.eqb c " " then S (countSpaces s') else countSpaces s'
  end.

(** The attempt indexes with which the retry policy was consulted, in
    the order of the trace. *)
Definition retries (tr : list event) : list nat :=
  omap (fun e => match e with evRetry i => Some i | evStack _ => None end) tr.

(** Code that adds no event to the trace. *)
Definition neutral {A : Type} (m : M A) : Prop := ∀ tr, fst (m tr) = tr.

(** * Properties *)

(** ** The scanner *)

Lemma Scan_pending_nil (s : scanner) :
  pending s = [] → Scan s = (false, s).
Proof.
  unfold pending, Scan. destruct (unscanned s); [discriminate|].
  intros ->. reflexivity.
Qed.

Lemma Scan_pending_cons (s : scanner) (l : string) (ls : list string) :
  pending s = l :: ls →
  Scan s = (true, {| input := ls; current := l; unscanned := false |}).
Proof.
  unfold pending, Scan. destruct (unscanned s).
  - intros [= <- <-]. reflexivity.
  - intros ->. reflexivity.
Qed.

Lemma Scan_scanned (ls : list string) (l : string) :
  Scan {| input := ls; current := l; unscanned := false |}
  = match ls with
    | [] => (false, {| input := []; current := l; unscanned := false |})
    | b :: ls' => (true, {| input := ls'; current := b; unscanned := false |})
    end.
Proof. destruct ls; reflexivity. Qed.

(** ** The loop of [parseStack] *)

Lemma isHeader_not_tab (l : string) : isHeader l = true → startsWithTab l = false.
Proof.
  destruct l as [|c l]; [done|]. unfold isHeader. simpl.
  destruct (Ascii.eqb_spec c "g"); [subst; reflexivity | discriminate].
Qed.

(** The loop on the scanner is the loop on the pending lines, and it
    ends when it has more fuel than there are lines pending. *)
Lemma parseStack_loop_lines (fuel : nat) (sc : scanner) (v : locals) :
  (length (pending sc) < fuel)%nat →
  ∃ sc', parseStack_loop fuel sc v = Some (sc', (parseStack_lines (pending sc) v).2)
         ∧ pending sc' = (parseStack_lines (pending sc) v).1.
Proof.
  revert sc v. induction fuel as [|fuel IH]; intros sc v Hlt; [lia|].
  destruct (pending sc) as [|l rest] eqn:Hp.
  - simpl. rewrite (Scan_pending_nil _ Hp). exists sc. split; [reflexivity | exact Hp].
  - cbn [parseStack_loop]. rewrite (Scan_pending_cons _ _ _ Hp).
    cbn [parseStack_lines]. unfold parseStack_iteration. cbn [Text current].
    destruct (isHeader l) eqn:Hh.
    { eexists; split; [reflexivity|]. reflexivity. }
    simpl in Hlt.
    destruct (Strings.len l =? 0)%nat.
    { apply (IH {| input := rest; current := l; unscanned := false |}). unfold pending; simpl; lia. }
    destruct (isElided l).
    { apply (IH {| input := rest; current := l; unscanned := false |}). unfold pending; simpl; lia. }
    destruct (parseFuncName l) as [[name creator]|e].
    2:{ eexists; split; reflexivity. }
    rewrite Scan_scanned. destruct rest as [|bs rest'].
    { destruct creator.
      - eexists; split; reflexivity.
      - edestruct (IH {| input := []; current := l; unscanned := false |}) as (sc' & E1 & E2);
          [unfold pending; simpl; lia|].
        rewrite E1. exists sc'. split; [reflexivity | exact E2]. }
    cbn [Bytes current]. destruct (startsWithTab bs).
    { destruct creator.
      - eexists; split; reflexivity.
      - apply (IH {| input := rest'; current := bs; unscanned := false |}). unfold pending; simpl in *; lia. }
    destruct creator.
    + eexists; split; reflexivity.
    + apply (IH (Unscan {| input := rest'; current := bs; unscanned := false |})).
      unfold pending; simpl in *; lia.
Qed.

(** ** Strings *)

Lemma sapp_cons (c : ascii) (s t : string) : String c s +:+ t = String c (s +:+ t).
Proof. reflexivity. Qed.

Lemma sapp_nil_r (s : string) : s +:+ EmptyString = s.
Proof. induction s as [|c s IH]; [reflexivity|]. by rewrite sapp_cons, IH. Qed.

Lemma sapp_assoc (s t u : string) : (s +:+ t) +:+ u = s +:+ (t +:+ u).
Proof. induction s as [|c s IH]; [reflexivity|]. by rewrite !sapp_cons, IH. Qed.

Lemma sapp_nil_l (s : string) : EmptyString +:+ s = s.
Proof. reflexivity. Qed.

Lemma len_app (s t : string) : Strings.len (s +:+ t) = (Strings.len s + Strings.len t)%nat.
Proof.
  unfold Strings.len. induction s as [|c s IH]; [reflexivity|].
  rewrite sapp_cons. cbn. by rewrite IH.
Qed.

Lemma drop_app_len (s t : string) : Strings.drop (Strings.len s) (s +:+ t) = t.
Proof.
  unfold Strings.len. induction s as [|c s IH]; [reflexivity|].
  rewrite sapp_cons. cbn. exact IH.
Qed.

Lemma take_app_len (X R : string) : Strings.take (Strings.len X) (X +:+ R) = X.
Proof.
  unfold Strings.len. induction X as [|c X IH]; [reflexivity|].
  rewrite sapp_cons. cbn [String.length Strings.take]. by rewrite IH.
Qed.

Lemma textOf_app (a b : list string) : textOf (a ++ b) = textOf a +:+ textOf b.
Proof.
  induction a as [|l a IH]; [reflexivity|].
  cbn [textOf app]. rewrite IH, !sapp_assoc. reflexivity.
Qed.

Ltac sapp := cbn; rewrite ?sapp_assoc, ?sapp_nil_r; try reflexivity.

(** ** The parts of a dump *)

Lemma chunks_pre_no_header (lines : list string) :
  Forall (fun l => isHeader l = false) (chunks lines).1.
Proof.
  induction lines as [|l ls IH]; cbn [chunks]; [constructor|].
  destruct (chunks ls) as [pre cs]. destruct (isHeader l) eqn:E; cbn; auto.
Qed.

(** A dump is its lines before the first header followed by a rest
    that is empty or starts with a header, and the rest has the same
    parts. *)
Lemma chunks_split (lines : list string) :
  ∃ tail, lines = (chunks lines).1 ++ tail
          ∧ chunks tail = ([], (chunks lines).2)
          ∧ (tail = [] ∨ ∃ h tail', tail = h :: tail' ∧ isHeader h = true).
Proof.
  induction lines as [|l ls (tail & E1 & E2 & E3)]; cbn [chunks].
  - exists []. auto.
  - destruct (chunks ls) as [pre cs] eqn:Ec. cbn in *.
    destruct (isHeader l) eqn:Eh; cbn.
    + exists (l :: ls). split; [reflexivity|]. split; [|eauto].
      cbn [chunks]. rewrite Ec, Eh. reflexivity.
    + exists tail. split; [by rewrite E1 at 1|]. auto.
Qed.

Lemma chunks_no_header (pre tail : list string) :
  Forall (fun l => isHeader l = false) pre →
  chunks (pre ++ tail) = (pre ++ (chunks tail).1, (chunks tail).2).
Proof.
  induction 1 as [|l pre Hl _ IH]; cbn [app chunks].
  - by destruct (chunks tail).
  - rewrite IH, Hl. reflexivity.
Qed.

Lemma chunks_header (pre tail : list string) (h : string) :
  isHeader h = true →
  chunks (pre ++ h :: tail)
  = ((chunks pre).1, (chunks pre).2 ++ (h, (chunks tail).1) :: (chunks tail).2).
Proof.
  intros Hh. induction pre as [|l pre IH]; cbn [app chunks].
  - rewrite Hh. by destruct (chunks tail).
  - rewrite IH. destruct (chunks pre) as [p cs]. cbn. by destruct (isHeader l).
Qed.

(** ** The loop of [parseStack], on lines *)

(** The loop leaves a suffix of its lines pending, and on success it
    has written exactly the lines it took, each with a line feed. *)
Lemma parseStack_lines_taken (lines : list string) (v : locals) :
  ∃ taken, lines = taken ++ (parseStack_lines lines v).1
           ∧ ∀ v', (parseStack_lines lines v).2 = Ok v' →
                   l_fullStack v' = l_fullStack v +:+ textOf taken.
Proof.
  functional induction (parseStack_lines lines v); cbn [fst snd].
  - exists []. split; [reflexivity|]. intros v' [= <-]. by rewrite sapp_nil_r.
  - exists []. split; [reflexivity|]. intros v' [= <-]. by rewrite sapp_nil_r.
  - destruct IHp as (taken & E1 & E2). exists (line :: taken).
    split; [by rewrite <- ?app_comm_cons, <- E1|]. intros v' Hv'. rewrite (E2 _ Hv').
    sapp.
  - destruct IHp as (taken & E1 & E2). exists (line :: taken).
    split; [by rewrite <- ?app_comm_cons, <- E1|]. intros v' Hv'. rewrite (E2 _ Hv').
    sapp.
  - exists [line]. split; [reflexivity|]. discriminate.
  - exists [line]. split; [reflexivity|]. intros v' [= <-].
    sapp.
  - exists [line; bs]. split; [reflexivity|]. intros v' [= <-].
    sapp.
  - destruct IHp as (taken & E1 & E2). exists (line :: bs :: taken).
    split; [by rewrite <- ?app_comm_cons, <- E1|]. intros v' Hv'. rewrite (E2 _ Hv').
    sapp.
  - exists [line]. split; [reflexivity|]. intros v' [= <-].
    sapp.
  - destruct IHp as (taken & E1 & E2). exists (line :: taken).
    split; [by rewrite <- ?app_comm_cons, <- E1|]. intros v' Hv'. rewrite (E2 _ Hv'). sapp.
Qed.

Lemma Forall_no_header_suffix (taken left : list string) :
  Forall (fun l => isHeader l = false) (taken ++ left) →
  Forall (fun l => isHeader l = false) left.
Proof. rewrite Forall_app. tauto. Qed.

Ltac rew_hyps :=
  repeat match goal with H : ?x = _ |- context [?x] => rewrite H end.

(** Lines that follow a stack body, starting at the next header, do
    not change what the loop does on the body: it stops at the header
    and leaves them pending. *)
Lemma parseStack_lines_app (body tail : list string) (v : locals) :
  Forall (fun l => isHeader l = false) body →
  (tail = [] ∨ ∃ h tail', tail = h :: tail' ∧ isHeader h = true) →
  parseStack_lines (body ++ tail) v
  = ((parseStack_lines body v).1 ++ tail, (parseStack_lines body v).2).
Proof.
  intros Hb Ht.
  assert (Hend : ∀ w, parseStack_lines tail w = (tail, Ok w)).
  { intros w. destruct Ht as [->|(h & tail' & -> & Hh)]; [reflexivity|].
    cbn [parseStack_lines]. by rewrite Hh. }
  assert (Htab : ∀ bs rest, tail = bs :: rest → startsWithTab bs = false).
  { intros bs rest ->. destruct Ht as [|(h & tail' & [= <- <-] & Hh)]; [done|].
    by apply isHeader_not_tab. }
  revert Hb. functional induction (parseStack_lines body v); intros Hb;
    cbn [fst snd app]; try (apply Forall_cons in Hb as [Hl Hb]).
  - apply Hend.
  - congruence.
  - cbn [parseStack_lines]; rew_hyps. by apply IHp.
  - cbn [parseStack_lines]; rew_hyps. by apply IHp.
  - cbn [parseStack_lines]. rew_hyps; done.
  - cbn [parseStack_lines]; rew_hyps. cbn [app].
    destruct tail as [|bs rest]; [reflexivity|].
    rewrite (Htab _ _ eq_refl). destruct creator; [reflexivity|]. apply Hend.
  - cbn [parseStack_lines]; rew_hyps. cbn [app]. rew_hyps; done.
  - cbn [parseStack_lines]; rew_hyps. cbn [app]. rew_hyps.
    apply Forall_cons in Hb as [_ Hb]. by apply IHp.
  - cbn [parseStack_lines]; rew_hyps. cbn [app]. rew_hyps; done.
  - cbn [parseStack_lines]; rew_hyps. cbn [app]. rew_hyps.
    by apply IHp.
Qed.

(** ** [parseStack] and [Parse] *)

Lemma parseStack_result (fuel : nat) (sc : scanner) (line : string) :
  (length (pending sc) < fuel)%nat →
  ∃ sc', parseStack fuel sc line = Some (sc', stackResult line (pending sc))
         ∧ pending sc' = stackRest line (pending sc).
Proof.
  intros Hlt. unfold parseStack, stackResult, stackRest.
  destruct (parseGoStackHeader line) as [[id state]|e]; [|eauto].
  destruct (parseStack_loop_lines fuel sc locals_init Hlt) as (sc' & -> & E).
  exists sc'. split; [|done].
  by destruct (parseStack_lines (pending sc) locals_init).2.
Qed.

Lemma stackResult_app (line : string) (body tail : list string) :
  Forall (fun l => isHeader l = false) body →
  (tail = [] ∨ ∃ h tail', tail = h :: tail' ∧ isHeader h = true) →
  stackResult line (body ++ tail) = stackResult line body
  ∧ ∃ left, stackRest line (body ++ tail) = left ++ tail
            ∧ Forall (fun l => isHeader l = false) left
            ∧ (length left <= length body)%nat.
Proof.
  intros Hb Ht. unfold stackResult, stackRest.
  rewrite (parseStack_lines_app _ _ _ Hb Ht). cbn [fst snd].
  split; [done|]. destruct (parseGoStackHeader line); [|eauto].
  destruct (parseStack_lines_taken body locals_init) as (taken & E & _).
  eexists; split; [done|]. rewrite E in Hb at 1. split.
  - by apply Forall_no_header_suffix in Hb.
  - rewrite E at 2. rewrite length_app. lia.
Qed.

(** [Parse] parses every header-delimited part of its lines on its
    own: it appends the stacks of the parts that parse and the errors
    of the parts that do not, and it takes every line. *)
Lemma Parse_loop_chunks (fuel : nat) (p : stackParser) :
  (length (pending (scan p)) < fuel)%nat →
  let results := (fun c => stackResult c.1 c.2) <$> (chunks (pending (scan p))).2 in
  ∃ p', Parse_loop fuel p = Some p'
        ∧ pending (scan p') = []
        ∧ stacks p' = stacks p ++ omap stackOf results
        ∧ errors p' = errors p ++ omap errorOf results.
Proof.
  revert p. induction fuel as [|fuel IH]; intros p Hlt; [lia|].
  destruct (pending (scan p)) as [|l rest] eqn:Hp; cbn [Parse_loop].
  - rewrite (Scan_pending_nil _ Hp). cbn. rewrite !app_nil_r. eauto.
  - rewrite (Scan_pending_cons _ _ _ Hp). cbn [Text current].
    set (sc1 := {| input := rest; current := l; unscanned := false |}).
    cbn [chunks]. destruct (chunks rest) as [pre cs] eqn:Ec.
    destruct (isHeader l) eqn:Hh; cbn [fst snd].
    + destruct (parseStack_result (S (length (pending sc1))) sc1 l) as (sc' & -> & Hsc');
        [lia|].
      change (pending sc1) with rest in Hsc' |- *.
      destruct (chunks_split rest) as (tail & E1 & E2 & E3). rewrite Ec in E1, E2.
      cbn [fst snd] in E1, E2.
      pose proof (chunks_pre_no_header rest) as Hpre. rewrite Ec in Hpre. cbn in Hpre.
      rewrite E1 in Hsc' |- *.
      destruct (stackResult_app l pre tail Hpre E3) as (-> & left & Hleft & Hnh & Hlen).
      rewrite Hleft in Hsc'.
      assert (Hchunks : (chunks (pending sc')).2 = cs).
      { rewrite Hsc', chunks_no_header, E2 by done. done. }
      cbn [fmap list_fmap omap list_omap fst snd].
      destruct (stackResult l pre) as [s|e] eqn:Er; cbn [stackOf errorOf].
      * edestruct (IH {| scan := sc'; stacks := stacks p ++ [s]; errors := errors p |})
          as (p' & Ep & E4 & E5 & E6).
        { cbn. rewrite Hsc', length_app. cbn in Hlt. rewrite E1, length_app in Hlt. lia. }
        cbn [scan stacks errors] in *. rewrite Hchunks in E5, E6.
        exists p'. rewrite Ep, E5, E6, <- app_assoc. done.
      * edestruct (IH {| scan := sc'; stacks := stacks p; errors := errors p ++ [e] |})
          as (p' & Ep & E4 & E5 & E6).
        { cbn. rewrite Hsc', length_app. cbn in Hlt. rewrite E1, length_app in Hlt. lia. }
        cbn [scan stacks errors] in *. rewrite Hchunks in E5, E6.
        exists p'. rewrite Ep, E5, E6, <- app_assoc. done.
    + edestruct (IH {| scan := sc1; stacks := stacks p; errors := errors p |})
        as (p' & Ep & E4 & E5 & E6).
      { cbn in *. lia. }
      cbn [scan stacks errors] in *. change (pending sc1) with rest in E5, E6.
      rewrite Ec in E5, E6. exists p'. by rewrite Ep.
Qed.

Lemma errors_Join_scanner_Err (es : list error) (sc : scanner) :
  errors_Join ((Some <$> es) ++ [scanner_Err sc]) = errors_Join (Some <$> es).
Proof.
  unfold errors_Join, scanner_Err. rewrite omap_app. cbn.
  by rewrite app_nil_r.
Qed.

(** [Parse] ends, with the stacks and the errors of the parts of the
    dump. *)
Lemma ParseLines_chunks (lines : list string) :
  let results := (fun c => stackResult c.1 c.2) <$> (chunks lines).2 in
  ParseLines lines
  = Some (omap stackOf results, errors_Join (Some <$> omap errorOf results)).
Proof.
  intros results. unfold ParseLines, stackParser_Parse.
  set (p := {| scan := scannerOf lines; stacks := []; errors := [] |}).
  destruct (Parse_loop_chunks (S (length (pending (scan p)))) p) as (p' & -> & _ & E1 & E2);
    [lia|].
  rewrite errors_Join_scanner_Err, E1, E2. reflexivity.
Qed.

Lemma ParseStack_lines (buf : string) :
  ParseStack buf = ParseLines (splitLines EmptyString buf).
Proof. reflexivity. Qed.

(** [Parse] always ends. *)
Lemma ParseStack_total (buf : string) :
  ∃ stacks err, ParseStack buf = Some (stacks, err).
Proof. rewrite ParseStack_lines, ParseLines_chunks. eauto. Qed.

Lemma parseChunk_result (c : string * list string) :
  ∃ sc, parseChunk c = Some (sc, stackResult c.1 c.2) ∧ pending sc = stackRest c.1 c.2.
Proof.
  unfold parseChunk.
  destruct (parseStack_result (S (length c.2)) (scannerOf c.2) c.1) as (sc & E1 & E2);
    [cbn; lia|].
  exists sc. by rewrite E1, E2.
Qed.

(** Every stack that [Parse] returns is the result of [parseStack] on
    one part of the dump. *)
Lemma ParseStack_stack_chunk (buf : string) (stacks : list Stack)
    (err : option error) (s : Stack) :
  ParseStack buf = Some (stacks, err) → s ∈ stacks →
  ∃ c sc, c ∈ (chunks (splitLines EmptyString buf)).2
          ∧ parseChunk c = Some (sc, Ok s)
          ∧ stackResult c.1 c.2 = Ok s
          ∧ pending sc = stackRest c.1 c.2.
Proof.
  rewrite ParseStack_lines, ParseLines_chunks. intros [= <- _] Hs.
  apply list_elem_of_omap in Hs as (r & Hr & Hs).
  apply list_elem_of_fmap in Hr as (c & -> & Hc).
  destruct (stackResult c.1 c.2) as [s'|] eqn:Er; [|discriminate].
  injection Hs as ->.
  destruct (parseChunk_result c) as (sc & E1 & E2). rewrite Er in E1. eauto 10.
Qed.

(** C2.  For every dump, [Parse] does not stop at a malformed stack:
    every header-delimited part of the dump (a header line and the
    lines up to the next header line) is parsed by [parseStack] on its
    own, whatever happened in the parts before it; [Parse] returns the
    stacks of all parts that parsed, in order, together with the join
    of the errors of all parts that did not. *)
Theorem Parse_collects_stacks_and_errors (buf : string) :
  ∃ results : list (result Stack),
    Forall2 (fun c r => ∃ sc, parseChunk c = Some (sc, r))
            (chunks (splitLines EmptyString buf)).2 results
    ∧ ParseStack buf
      = Some (omap stackOf results, errors_Join (Some <$> omap errorOf results)).
Proof.
  exists ((fun c => stackResult c.1 c.2) <$> (chunks (splitLines EmptyString buf)).2).
  split; [|by rewrite ParseStack_lines, ParseLines_chunks].
  apply Forall2_fmap_r, Forall_Forall2_diag, Forall_forall. intros c _.
  destruct (parseChunk_result c) as (sc & E & _). eauto.
Qed.

(** A dump with a malformed header, a stack with a line that is no
    call, and two well-formed stacks: both failures are reported, and
    both well-formed stacks are returned. *)
Lemma Parse_mixed_example :
  ∃ s1 s4,
    ParseStack dump_mixed
    = Some ([s1; s4],
            Some (joinError
                    [errWrap "parse header" (errBadGoroutineID "x" "goroutine x [running]");
                     errWrap "parse function" (errNoFunctionFound "not a call line")]))
    ∧ ID s1 = 1 ∧ ID s4 = 4.
Proof. do 2 eexists. split; [vm_compute; reflexivity|]. split; reflexivity. Qed.

(** ** Entries and functions of a parsed stack *)

Lemma sourceLast_none (es : list Entry) :
  Forall (fun e => IsSource e = false) es → sourceLast es.
Proof.
  intros Hes i e Hi He. rewrite Forall_lookup in Hes.
  specialize (Hes i e Hi). cbn in Hes. congruence.
Qed.

Lemma sourceLast_snoc (es : list Entry) (e : Entry) :
  Forall (fun e => IsSource e = false) es → sourceLast (es ++ [e]).
Proof.
  intros Hes i e' Hi He'. rewrite length_app. cbn.
  destruct (decide (i < length es)%nat) as [Hlt|Hge].
  - rewrite lookup_app_l in Hi by done. rewrite Forall_lookup in Hes.
    specialize (Hes i e' Hi). cbn in Hes. congruence.
  - apply lookup_lt_Some in Hi. rewrite length_app in Hi. cbn in Hi. lia.
Qed.

Lemma parseStack_lines_entries (lines : list string) (v v' : locals) :
  Forall (fun e => IsSource e = false) (l_entries v) →
  IsSource (l_currentEntry v) = false →
  (parseStack_lines lines v).2 = Ok v' →
  sourceLast (l_entries v').
Proof.
  functional induction (parseStack_lines lines v); cbn [fst snd]; intros Hes Hcur;
    try (intros [= <-]); try discriminate; cbn [recordCall recordLocation writeLine l_entries];
    auto using sourceLast_none, sourceLast_snoc.
  - apply IHp; cbn; [|done]. apply Forall_app. split; [done|]. by repeat constructor.
Qed.

Lemma parseStack_lines_funcs (lines : list string) (v v' : locals) (name : string) :
  (parseStack_lines lines v).2 = Ok v' →
  name ∈ l_funcs v' →
  name ∈ l_funcs v
  ∨ ∃ line, line ∈ lines ∧ parseFuncName line = Ok (name, false).
Proof.
  assert (Hcall : ∀ w line funcName creator rest,
            parseFuncName line = Ok (funcName, creator) →
            name ∈ l_funcs (recordCall (writeLine w line) line funcName creator) →
            name ∈ l_funcs w
            ∨ ∃ l, l ∈ line :: rest ∧ parseFuncName l = Ok (name, false)).
  { intros w line funcName creator rest Hp. destruct creator; cbn; [tauto|].
    rewrite elem_of_union, elem_of_singleton. intros [->|?]; [|tauto].
    right. exists line. split; [apply elem_of_cons; tauto|done]. }
  assert (Hmore : ∀ (w : gset string) line rest,
            (name ∈ w ∨ ∃ l, l ∈ rest ∧ parseFuncName l = Ok (name, false)) →
            (name ∈ w ∨ ∃ l, l ∈ line :: rest ∧ parseFuncName l = Ok (name, false))).
  { intros w line rest [?|(l & Hl & Hp)]; [tauto|].
    right. exists l. split; [apply elem_of_cons; tauto|done]. }
  functional induction (parseStack_lines lines v); cbn [fst snd];
    try (intros [= <-]); try discriminate; eauto.
  - intros Hv' Hn. destruct (IHp Hv' Hn) as [Hin|(l & Hl & Hp)]; [by eapply Hcall|].
    right. exists l. split; [|done]. rewrite !elem_of_cons. tauto.
  - intros Hv' Hn. destruct (IHp Hv' Hn) as [Hin|(l & Hl & Hp)]; [by eapply Hcall|].
    right. exists l. split; [|done]. rewrite !elem_of_cons in *. tauto.
Qed.

Lemma chunks_pre_elem (lines : list string) (l : string) :
  l ∈ (chunks lines).1 → l ∈ lines.
Proof.
  induction lines as [|x ls IH]; cbn [chunks]; [done|].
  destruct (chunks ls) as [pre cs]. destruct (isHeader x); cbn in *.
  - by intros ?%elem_of_nil.
  - rewrite !elem_of_cons. tauto.
Qed.

Lemma chunks_elem (lines : list string) (h : string) (body : list string) (l : string) :
  (h, body) ∈ (chunks lines).2 → l ∈ body → l ∈ lines.
Proof.
  induction lines as [|x ls IH]; cbn [chunks]; [by intros ?%elem_of_nil|].
  pose proof (chunks_pre_elem ls l) as Hpre.
  destruct (chunks ls) as [pre cs]. destruct (isHeader x); cbn in *.
  - rewrite !elem_of_cons. intros [[= -> ->]|?] ?; auto.
  - rewrite elem_of_cons. auto.
Qed.

Lemma stackResult_Ok (line : string) (lines : list string) (s : Stack) :
  stackResult line lines = Ok s →
  ∃ v, (parseStack_lines lines locals_init).2 = Ok v
       ∧ parseGoStackHeader line = Ok (Stack_id s, Stack_state s)
       ∧ stackRest line lines = (parseStack_lines lines locals_init).1
       ∧ firstFunction s = l_firstFunction v
       ∧ allFunctions s = l_funcs v
       ∧ fullStack s = l_fullStack v
       ∧ entries s = l_entries v.
Proof.
  unfold stackResult, stackRest.
  destruct (parseGoStackHeader line) as [[id state]|]; [|discriminate].
  destruct (parseStack_lines lines locals_init).2 as [v|]; [|discriminate].
  intros [= <-]. exists v. cbn. done.
Qed.

(** C4, as stated, fails: the header line of a stack is taken by the
    parser but is no part of [fullStack]. *)
Lemma fullStack_omits_header :
  ∃ s, ParseStack dump_one_frame = Some ([s], None)
       ∧ fullStack s = textOf ["main.foo()"; String TAB "/a/b.go:10 +0x1"]
       ∧ fullStack s ≠ textOf ["goroutine 1 [running]:"; "main.foo()"; String TAB "/a/b.go:10 +0x1"]
       ∧ Strings.Index (fullStack s) "goroutine 1 [running]:" = None.
Proof.
  eexists. split; [vm_compute; reflexivity|]. split; [reflexivity|].
  split; [discriminate|]. vm_compute. reflexivity.
Qed.

(** C4 (amended).  For every stack that [Parse] returns, [fullStack]
    is the text of the lines that [parseStack] took from the scanner
    after the header line, in their order, each followed by a line
    feed; the header line itself is not part of it. *)
Theorem fullStack_is_text_of_taken_lines
    (buf : string) (stacks : list Stack) (err : option error) (s : Stack) :
  ParseStack buf = Some (stacks, err) → s ∈ stacks →
  ∃ header body sc taken,
    (header, body) ∈ (chunks (splitLines EmptyString buf)).2
    ∧ parseStack (S (length body)) (scannerOf body) header = Some (sc, Ok s)
    ∧ body = taken ++ pending sc
    ∧ fullStack s = textOf taken.
Proof.
  intros Hparse Hs.
  destruct (ParseStack_stack_chunk _ _ _ _ Hparse Hs) as ([header body] & sc & Hc & Hp & Hr & Hsc).
  apply stackResult_Ok in Hr as (v & Hv & _ & Hrest & _ & _ & Hfull & _).
  destruct (parseStack_lines_taken body locals_init) as (taken & Hbody & Htext).
  exists header, body, sc, taken. split; [done|]. split; [done|].
  cbn [fst snd] in *. rewrite Hsc, Hrest, Hfull, (Htext _ Hv). done.
Qed.

Lemma fullStack_is_text_of_taken_lines_witness :
  ∃ header body sc taken,
    (header, body) ∈ (chunks (splitLines EmptyString dump_one_frame)).2
    ∧ parseStack (S (length body)) (scannerOf body) header
      = Some (sc, Ok (hd Stack_zero (stacksOf dump_one_frame)))
    ∧ body = taken ++ pending sc
    ∧ fullStack (hd Stack_zero (stacksOf dump_one_frame)) = textOf taken.
Proof.
  apply (fullStack_is_text_of_taken_lines dump_one_frame (stacksOf dump_one_frame) None).
  - vm_compute. reflexivity.
  - vm_compute. apply list_elem_of_here.
Defined.

Lemma callLines_taken (lines : list string) (v : locals) :
  ∃ taken, lines = taken ++ (parseStack_lines lines v).1
           ∧ ∀ line, line ∈ callLines lines → line ∈ taken.
Proof.
  functional induction (parseStack_lines lines v);
    rewrite callLines_equation; rew_hyps; cbn [fst snd];
    try (destruct IHp as (taken & E1 & E2)).
  - exists []. split; [done|]. by intros ? ?%elem_of_nil.
  - exists []. split; [done|]. by intros ? ?%elem_of_nil.
  - exists (line :: taken). split; [by rewrite <- app_comm_cons, <- E1|].
    intros l Hl. apply elem_of_cons. auto.
  - exists (line :: taken). split; [by rewrite <- app_comm_cons, <- E1|].
    intros l Hl. apply elem_of_cons. auto.
  - exists [line]. split; [done|]. auto.
  - exists [line]. split; [done|]. auto.
  - exists [line; bs]. split; [done|].
    intros l ->%list_elem_of_singleton. apply list_elem_of_here.
  - exists (line :: bs :: taken). split; [by rewrite <- !app_comm_cons, <- E1|].
    intros l [->|Hl]%elem_of_cons; rewrite !elem_of_cons; auto.
  - exists [line]. split; [done|]. auto.
  - exists (line :: taken). split; [by rewrite <- app_comm_cons, <- E1|].
    intros l [->|Hl]%elem_of_cons; rewrite !elem_of_cons; auto.
Qed.

Lemma parseStack_lines_funcs_calls (lines : list string) (v v' : locals) (name : string) :
  (parseStack_lines lines v).2 = Ok v' →
  name ∈ l_funcs v'
  ↔ name ∈ l_funcs v
    ∨ ∃ line, line ∈ callLines lines ∧ parseFuncName line = Ok (name, false).
Proof.
  assert (Hcall : ∀ w line funcName creator,
            parseFuncName line = Ok (funcName, creator) →
            name ∈ l_funcs (recordCall (writeLine w line) line funcName creator)
            ↔ name ∈ l_funcs w ∨ (creator = false ∧ funcName = name)).
  { intros w line funcName creator Hp. destruct creator; cbn.
    - split; [tauto|]. by intros [?|[[=] _]].
    - rewrite elem_of_union, elem_of_singleton. split; [intros [->|?]; tauto|].
      intros [?|[_ ->]]; tauto. }
  assert (Hone : ∀ line funcName creator,
            parseFuncName line = Ok (funcName, creator) →
            (creator = false ∧ funcName = name)
            ↔ ∃ l, l ∈ [line] ∧ parseFuncName l = Ok (name, false)).
  { intros line funcName creator Hp. split.
    - intros [-> ->]. exists line. split; [apply list_elem_of_here|done].
    - intros (l & ->%list_elem_of_singleton & Hl). rewrite Hp in Hl.
      by injection Hl as -> ->. }
  assert (Hmore : ∀ line funcName rest,
            parseFuncName line = Ok (funcName, false) →
            ((false = false ∧ funcName = name)
             ∨ ∃ l, l ∈ rest ∧ parseFuncName l = Ok (name, false))
            ↔ ∃ l, l ∈ line :: rest ∧ parseFuncName l = Ok (name, false)).
  { intros line funcName rest Hp. split.
    - intros [[_ ->]|(l & Hl & Hpl)].
      + exists line. split; [apply list_elem_of_here|done].
      + exists l. split; [by apply list_elem_of_further|done].
    - intros (l & [->|Hl]%elem_of_cons & Hpl).
      + left. rewrite Hp in Hpl. by injection Hpl as ->.
      + right. eauto. }
  functional induction (parseStack_lines lines v);
    rewrite callLines_equation; rew_hyps; cbn [fst snd];
    try (intros [= <-]); try discriminate.
  - split; [tauto|]. by intros [?|(l & ?%elem_of_nil & _)].
  - split; [tauto|]. by intros [?|(l & ?%elem_of_nil & _)].
  - intros Hv'. by rewrite (IHp Hv').
  - intros Hv'. by rewrite (IHp Hv').
  - by rewrite Hcall, <- Hone.
  - unfold recordLocation; cbn [l_funcs]. by rewrite Hcall, <- Hone.
  - intros Hv'. rewrite (IHp Hv'). unfold recordLocation; cbn [l_funcs].
    rewrite Hcall by done. rewrite <- (Hmore line funcName) by done. tauto.
  - by rewrite Hcall, <- Hone.
  - intros Hv'. rewrite (IHp Hv'), Hcall by done.
    rewrite <- (Hmore line funcName) by done. tauto.
Qed.

(** C5, as stated, fails: [allFunctions] holds the name of the
    creator's function when an ordinary frame of the stack has that
    name. *)
Lemma allFunctions_has_creator_name :
  ∃ s, ParseStack dump_worker = Some ([s], None)
       ∧ IsSource (SourceEntry s) = true
       ∧ parseFuncName (FunctionCall (SourceEntry s)) = Ok ("main.worker", true)
       ∧ HasFunction s "main.worker" = true.
Proof.
  eexists. split; [vm_compute; reflexivity|].
  split; [reflexivity|]. split; vm_compute; reflexivity.
Qed.

(** C5 (amended).  For every stack that [Parse] returns, an entry with
    [IsSource = true] can only be the last entry, so there is at most
    one; and the names in [allFunctions] are exactly the function
    names of the call lines of that stack that are no creator lines,
    a call line of the stack being a line that [parseStack] took for
    it and handed to [parseFuncName]: a creator line adds nothing to
    [allFunctions]. *)
Theorem source_entry_last_and_functions_from_calls
    (buf : string) (stacks : list Stack) (err : option error) (s : Stack) :
  ParseStack buf = Some (stacks, err) → s ∈ stacks →
  (∀ i e, entries s !! i = Some e → IsSource e = true → S i = length (entries s))
  ∧ ∃ header body sc taken,
      (header, body) ∈ (chunks (splitLines EmptyString buf)).2
      ∧ parseStack (S (length body)) (scannerOf body) header = Some (sc, Ok s)
      ∧ body = taken ++ pending sc
      ∧ (∀ line, line ∈ callLines body → line ∈ taken)
      ∧ ∀ name, name ∈ allFunctions s
                ↔ ∃ line, line ∈ callLines body ∧ parseFuncName line = Ok (name, false).
Proof.
  intros Hparse Hs.
  destruct (ParseStack_stack_chunk _ _ _ _ Hparse Hs)
    as ([header body] & sc & Hc & Hp & Hr & Hsc).
  apply stackResult_Ok in Hr as (v & Hv & _ & Hrest & _ & Hfuncs & _ & Hentries).
  cbn [fst snd] in *. split.
  - rewrite Hentries. by apply (parseStack_lines_entries body locals_init v).
  - destruct (callLines_taken body locals_init) as (taken & Hbody & Htaken).
    exists header, body, sc, taken. split; [done|]. split; [done|].
    split; [by rewrite Hsc, Hrest|]. split; [done|].
    intros name. rewrite Hfuncs, (parseStack_lines_funcs_calls body locals_init v name Hv).
    split; [|tauto]. intros [Hin|?]; [|done]. cbn in Hin. by apply not_elem_of_empty in Hin.
Qed.

Lemma source_entry_last_and_functions_from_calls_witness :
  (∀ i e, entries (hd Stack_zero (stacksOf dump_worker)) !! i = Some e →
          IsSource e = true →
          S i = length (entries (hd Stack_zero (stacksOf dump_worker))))
  ∧ ∃ header body sc taken,
      (header, body) ∈ (chunks (splitLines EmptyString dump_worker)).2
      ∧ parseStack (S (length body)) (scannerOf body) header
        = Some (sc, Ok (hd Stack_zero (stacksOf dump_worker)))
      ∧ body = taken ++ pending sc
      ∧ (∀ line, line ∈ callLines body → line ∈ taken)
      ∧ ∀ name, name ∈ allFunctions (hd Stack_zero (stacksOf dump_worker))
                ↔ ∃ line, line ∈ callLines body ∧ parseFuncName line = Ok (name, false).
Proof.
  apply (source_entry_last_and_functions_from_calls dump_worker (stacksOf dump_worker) None).
  - vm_compute. reflexivity.
  - vm_compute. apply list_elem_of_here.
Defined.

(** ** A call line without location line *)

(** C9.  When the loop of [parseStack] reads a call line (ordinary or
    creator) and the line that follows does not begin with a tab (or
    no line follows), the iteration appends nothing to [entries] and
    leaves the following line pending; for an ordinary call line the
    function name still joins [funcs] and becomes [firstFunction] if
    there was none.  So a stack can have a function in [allFunctions]
    that none of its entries shows. *)
Theorem call_line_without_location_adds_no_entry
    (sc : scanner) (v : locals) (line : string) (rest : list string)
    (name : string) (creator : bool) :
  pending sc = line :: rest →
  isHeader line = false →
  Strings.len line ≠ O →
  isElided line = false →
  parseFuncName line = Ok (name, creator) →
  (∀ bs rest', rest = bs :: rest' → startsWithTab bs = false) →
  (∃ sc1 sc' v',
     Scan sc = (true, sc1) ∧ Text sc1 = line
     ∧ parseStack_iteration sc1 v = (if creator then Break sc' v' else Continue sc' v')
     ∧ l_entries v' = l_entries v
     ∧ pending sc' = rest
     ∧ l_funcs v' = (if creator then l_funcs v else {[ name ]} ∪ l_funcs v)
     ∧ l_firstFunction v'
       = (if creator then l_firstFunction v
          else if String.eqb (l_firstFunction v) EmptyString then name
               else l_firstFunction v))
  ∧ (∃ s, ParseStack dump_no_location = Some ([s], None)
          ∧ entries s = []
          ∧ HasFunction s "main.foo" = true
          ∧ firstFunction s = "main.foo").
Proof.
  intros Hp Hh Hlen He Hf Hrest. split.
  2:{ eexists. split; [vm_compute; reflexivity|]. repeat split. }
  rewrite (Scan_pending_cons _ _ _ Hp).
  exists {| input := rest; current := line; unscanned := false |}.
  unfold parseStack_iteration. cbn [Text current]. rewrite Hh, He, Hf.
  apply Nat.eqb_neq in Hlen. rewrite Hlen, Scan_scanned.
  destruct rest as [|bs rest'].
  - destruct creator; do 2 eexists; repeat split.
  - cbn [Bytes current]. rewrite (Hrest _ _ eq_refl).
    destruct creator; do 2 eexists; repeat split.
Qed.

Lemma call_line_without_location_adds_no_entry_witness :
  (∃ sc1 sc' v',
     Scan (scannerOf ["main.foo()"; "goroutine 2 [select]:"]) = (true, sc1)
     ∧ Text sc1 = "main.foo()"
     ∧ parseStack_iteration sc1 locals_init = Continue sc' v'
     ∧ l_entries v' = []
     ∧ pending sc' = ["goroutine 2 [select]:"]
     ∧ l_funcs v' = {[ "main.foo" ]} ∪ ∅
     ∧ l_firstFunction v' = "main.foo")
  ∧ (∃ s, ParseStack dump_no_location = Some ([s], None)
          ∧ entries s = []
          ∧ HasFunction s "main.foo" = true
          ∧ firstFunction s = "main.foo").
Proof.
  apply (call_line_without_location_adds_no_entry
           (scannerOf ["main.foo()"; "goroutine 2 [select]:"]) locals_init
           "main.foo()" ["goroutine 2 [select]:"] "main.foo" false).
  - reflexivity.
  - reflexivity.
  - simpl. lia.
  - reflexivity.
  - reflexivity.
  - intros bs rest' [= <- <-]. reflexivity.
Defined.

(** ** The header line *)

(** Trimming a one-byte suffix from a text that ends with a byte. *)
Lemma TrimSuffix_snoc (s : string) (c d : ascii) :
  Strings.TrimSuffix (s +:+ String c EmptyString) (String d EmptyString)
  = if Ascii.eqb c d then s else s +:+ String c EmptyString.
Proof.
  unfold Strings.TrimSuffix, Strings.HasSuffix.
  rewrite len_app. cbn [Strings.len String.length].
  replace (Strings.len s + 1 - 1)%nat with (Strings.len s) by lia.
  rewrite drop_app_len, take_app_len.
  replace (1 <=? Strings.len s + 1)%nat with true by (symmetry; apply Nat.leb_le; lia).
  cbn. destruct (Ascii.eqb c d); reflexivity.
Qed.

Lemma Index_space (a b : string) :
  noSpace a = true → Strings.Index (a +:+ String " " b) " " = Some (Strings.len a).
Proof.
  induction a as [|c a IH]; [reflexivity|]. cbn [noSpace].
  intros [Hc Ha]%andb_prop. rewrite sapp_cons. cbn [Strings.Index Strings.HasPrefix].
  destruct (Ascii.eqb c " "); [discriminate|]. by rewrite IH.
Qed.

Lemma drop_space (a b : string) :
  Strings.drop (Strings.len a + Strings.len " ") (a +:+ String " " b) = b.
Proof.
  unfold Strings.len. induction a as [|c a IH]; [reflexivity|].
  rewrite sapp_cons. exact IH.
Qed.

Lemma SplitN_three (a b c : string) :
  noSpace a = true → noSpace b = true →
  Strings.SplitN (a +:+ String " " (b +:+ String " " c)) " " 3 = [a; b; c].
Proof.
  intros Ha Hb. cbn [Strings.SplitN]. rewrite (Index_space a _ Ha).
  cbv iota beta. rewrite take_app_len, drop_space, (Index_space b _ Hb).
  cbv iota beta. by rewrite take_app_len, drop_space.
Qed.

(** [parseGoStackHeader] on a header line as the runtime prints it, a
    word, the goroutine id and the state in brackets, followed by a
    colon, by a line feed or by neither: it returns the id and the
    state without its brackets, spaces of the state included. *)
Lemma parseGoStackHeader_shapes (word idText state sfx : string) (id : Z) :
  noSpace word = true → noSpace idText = true →
  Strconv.Atoi idText = Some id →
  sfx = EmptyString ∨ sfx = ":" ∨ sfx = nl →
  parseGoStackHeader (word +:+ " " +:+ idText +:+ " [" +:+ state +:+ "]" +:+ sfx)
  = Ok (id, state).
Proof.
  intros Hw Hi Ha Hsfx. unfold parseGoStackHeader.
  set (base := word +:+ " " +:+ idText +:+ " [" +:+ state).
  assert (E : Strings.TrimSuffix
                (Strings.TrimSuffix
                   (word +:+ " " +:+ idText +:+ " [" +:+ state +:+ "]" +:+ sfx) ":") nl
              = base +:+ "]").
  { replace (word +:+ " " +:+ idText +:+ " [" +:+ state +:+ "]" +:+ sfx)
      with ((base +:+ "]") +:+ sfx) by (unfold base; by rewrite !sapp_assoc).
    unfold nl in *. destruct Hsfx as [->|[->| ->]]; rewrite ?sapp_nil_r;
      repeat (rewrite TrimSuffix_snoc; cbn [Ascii.eqb Bool.eqb LF]); reflexivity. }
  rewrite E. unfold base. rewrite !sapp_assoc, !sapp_cons, !sapp_nil_l.
  rewrite (SplitN_three word idText _ Hw Hi), Ha.
  unfold Strings.TrimPrefix. cbn [Strings.HasPrefix Ascii.eqb Bool.eqb].
  cbn [Strings.len String.length Strings.drop].
  pose proof (TrimSuffix_snoc state "]" "]") as Ht. cbn in Ht. by rewrite Ht.
Qed.

(** C7.  The claim fails on a header line that ends with a colon
    followed by a line feed: the colon is trimmed first, when the line
    still ends with the line feed, so it stays, and the state keeps
    the closing bracket and the colon. *)
Theorem parseGoStackHeader_colon_then_newline :
  parseGoStackHeader ("goroutine 643 [runnable]:" +:+ nl) = Ok (643, "runnable]:")
  ∧ parseGoStackHeader "goroutine 643 [runnable]:" = Ok (643, "runnable")
  ∧ parseGoStackHeader ("goroutine 643 [runnable]" +:+ nl) = Ok (643, "runnable")
  ∧ parseGoStackHeader "goroutine 643 [runnable]" = Ok (643, "runnable").
Proof. repeat split; vm_compute; reflexivity. Qed.

(** ** Rendering of a stack *)

Lemma FindStringSubmatch_shape (s : string) :
  sourceGoroutineRe.FindStringSubmatch s = []
  ∨ ∃ d, sourceGoroutineRe.FindStringSubmatch s = ["goroutine " +:+ d; d].
Proof.
  induction s as [|c s IH]; cbn [sourceGoroutineRe.FindStringSubmatch].
  - destruct (sourceGoroutineRe.matchAt EmptyString); eauto.
  - destruct (sourceGoroutineRe.matchAt (String c s)); eauto.
Qed.

(** C10.  [PrettyPrint] panics on the index into the submatches
    exactly when the stack has a source entry and the call text of
    the first one has no match of [goroutine (\d+)]; the parser
    produces such a stack from a creator line without the
    " in goroutine G" part. *)
Theorem PrettyPrint_panics_without_goroutine_token
    (Colors : aurora) (TrimSpace : string → string) (filter : list (Stack → bool)) :
  (∀ s, PrettyPrint Colors TrimSpace s filter
        = Panicked "index out of range [1] with length 0"
        ↔ ∃ e, List.find IsSource (entries s) = Some e
               ∧ sourceGoroutineRe.FindStringSubmatch (FunctionCall e) = [])
  ∧ (∃ s, ParseStack dump_creator_without_goroutine = Some ([s], None)
          ∧ FunctionCall (SourceEntry s) = "created by main.spawn"
          ∧ PrettyPrint Colors TrimSpace s filter
            = Panicked "index out of range [1] with length 0").
Proof.
  assert (Hiff : ∀ s, PrettyPrint Colors TrimSpace s filter
        = Panicked "index out of range [1] with length 0"
        ↔ ∃ e, List.find IsSource (entries s) = Some e
               ∧ sourceGoroutineRe.FindStringSubmatch (FunctionCall e) = []).
  { intros s. unfold PrettyPrint.
    destruct (List.find IsSource (entries s)) as [e|]; [|split; [discriminate|]].
    - destruct (FindStringSubmatch_shape (FunctionCall e)) as [E|[d E]]; rewrite E; cbn.
      + split; [eauto|done].
      + split; [discriminate|]. intros (e' & [= <-] & E'). congruence.
    - intros (e & He & _). discriminate. }
  split; [exact Hiff|].
  eexists. split; [vm_compute; reflexivity|]. split; [reflexivity|].
  apply Hiff. eexists. split; reflexivity.
Qed.

(** ** The dependency graph *)

(** *** What [BuildGraph] builds, whatever the order of the walks *)

Lemma sort_Ints_Permutation (l l' : list Z) :
  l ≡ₚ l' → sort_Ints l = sort_Ints l'.
Proof.
  intros Hp. unfold sort_Ints.
  apply (Sorted_unique Z.le); try apply Sorted_merge_sort; try apply _.
  by rewrite !merge_sort_Permutation.
Qed.

Lemma BuildGraph_collect_fold (mapping : gmap Z Z) (ks : list Z)
    (g0 : gmap Z (list Z)) (a0 : gset Z) :
  let r := foldl (fun '((graph, allNodes) : gmap Z (list Z) * gset Z) item =>
                    match mapping !! item with
                    | Some source =>
                        (<[source := default [] (graph !! source) ++ [item]]> graph,
                         {[source]} ∪ ({[item]} ∪ allNodes))
                    | None => (graph, allNodes)
                    end) (g0, a0) ks in
  (∀ n, r.1 !! n = match childrenIn mapping n ks with
                   | [] => g0 !! n
                   | l => Some (default [] (g0 !! n) ++ l)
                   end)
  ∧ (∀ n, n ∈ r.2 ↔ n ∈ a0 ∨ ∃ item source, item ∈ ks ∧ mapping !! item = Some source
                                              ∧ (n = item ∨ n = source)).
Proof.
  revert g0 a0. induction ks as [|k ks IH]; intros g0 a0; cbn [foldl].
  { split; [done|]. intros n. split; [auto|]. intros [?|(i & s & []%elem_of_nil & _)]. done. }
  destruct (mapping !! k) as [src|] eqn:Ek.
  - destruct (IH (<[src := default [] (g0 !! src) ++ [k]]> g0)
                 ({[src]} ∪ ({[k]} ∪ a0))) as [IH1 IH2].
    split.
    + intros n. rewrite IH1. unfold childrenIn. rewrite filter_cons.
      destruct (decide (n = src)) as [->|Hne].
      * rewrite decide_True by done. rewrite lookup_insert_eq. cbn [default].
        destruct (filter _ ks); cbn; [done|]. by rewrite <- app_assoc.
      * rewrite decide_False by congruence. by rewrite lookup_insert_ne.
    + intros n. rewrite IH2, !elem_of_union, !elem_of_singleton. split.
      * intros [[->|[->|?]]|(i & s & Hi & Hs & Hn)]; eauto 10 using list_elem_of_here.
        right. exists i, s. split; [by apply list_elem_of_further|done].
      * intros [?|(i & s & Hi & Hs & Hn)]; [tauto|].
        apply elem_of_cons in Hi as [->|Hi].
        -- assert (s = src) as -> by congruence. tauto.
        -- right. eauto.
  - destruct (IH g0 a0) as [IH1 IH2]. split.
    + intros n. rewrite IH1. unfold childrenIn. rewrite filter_cons.
      rewrite decide_False by congruence. done.
    + intros n. rewrite IH2. split.
      * intros [?|(i & s & Hi & Hs & Hn)]; [tauto|].
        right. exists i, s. split; [by apply list_elem_of_further|done].
      * intros [?|(i & s & Hi & Hs & Hn)]; [tauto|].
        apply elem_of_cons in Hi as [->|Hi]; [congruence|]. right. eauto.
Qed.

Lemma BuildGraph_fill_fold (nodes : list Z) (g : gmap Z (list Z)) (n : Z) :
  foldl (fun (graph : gmap Z (list Z)) node =>
           match graph !! node with
           | Some _ => graph
           | None => <[node := []]> graph
           end) g nodes !! n
  = match g !! n with
    | Some l => Some l
    | None => if decide (n ∈ nodes) then Some [] else None
    end.
Proof.
  revert g. induction nodes as [|k nodes IH]; intros g; cbn [foldl].
  { destruct (g !! n); [done|]. by rewrite decide_False by apply not_elem_of_nil. }
  rewrite IH. destruct (g !! k) eqn:Ek.
  - destruct (g !! n) eqn:En; [done|].
    destruct (decide (n = k)) as [->|Hne]; [congruence|].
    destruct (decide (n ∈ nodes)).
    + by rewrite decide_True by by apply list_elem_of_further.
    + rewrite decide_False; [done|]. rewrite elem_of_cons. tauto.
  - destruct (decide (n = k)) as [->|Hne].
    + rewrite lookup_insert_eq, Ek. by rewrite decide_True by apply list_elem_of_here.
    + rewrite lookup_insert_ne by done. destruct (g !! n); [done|].
      destruct (decide (n ∈ nodes)).
      * by rewrite decide_True by by apply list_elem_of_further.
      * rewrite decide_False; [done|]. rewrite elem_of_cons. tauto.
Qed.

Lemma BuildGraph_sort_fold (ks : list Z) (g : gmap Z (list Z)) (n : Z) :
  NoDup ks →
  foldl (fun (graph : gmap Z (list Z)) node => alter sort_Ints node graph) g ks !! n
  = if decide (n ∈ ks) then sort_Ints <$> g !! n else g !! n.
Proof.
  intros Hnd. revert g. induction Hnd as [|k ks Hk _ IH]; intros g; cbn [foldl].
  { by rewrite decide_False by apply not_elem_of_nil. }
  rewrite IH. destruct (decide (n = k)) as [->|Hne].
  - rewrite decide_False by done. rewrite lookup_alter_eq.
    by rewrite decide_True by apply list_elem_of_here.
  - rewrite lookup_alter_ne by done. destruct (decide (n ∈ ks)).
    + by rewrite decide_True by by apply list_elem_of_further.
    + rewrite decide_False; [done|]. rewrite elem_of_cons. tauto.
Qed.

Lemma rangeKeys_elem {V : Type} (ρ : MapOrder) (site : nat) (m : gmap Z V) (k : Z) :
  MapOrder_ok ρ → k ∈ rangeKeys ρ site m ↔ is_Some (m !! k).
Proof.
  intros Hok. unfold rangeKeys. rewrite (Hok site _), list_elem_of_fmap. split.
  - intros ([k' v] & -> & Hkv). apply elem_of_map_to_list in Hkv. by exists v.
  - intros [v Hv]. exists (k, v). split; [done|]. by apply elem_of_map_to_list.
Qed.

Lemma rangeKeys_NoDup {V : Type} (ρ : MapOrder) (site : nat) (m : gmap Z V) :
  MapOrder_ok ρ → NoDup (rangeKeys ρ site m).
Proof.
  intros Hok. unfold rangeKeys. rewrite (Hok site _). apply NoDup_fst_map_to_list.
Qed.

(** The graph that [BuildGraph] returns: every node of the mapping
    has an entry, with the items created by it in ascending order. *)
Lemma BuildGraph_lookup (ρ : MapOrder) (mapping : gmap Z Z) (n : Z) :
  MapOrder_ok ρ →
  BuildGraph ρ mapping !! n
  = if decide (n ∈ nodesOf mapping)
    then Some (sort_Ints (childrenIn mapping n (map fst (map_to_list mapping))))
    else None.
Proof.
  intros Hok. unfold BuildGraph, BuildGraph_collect.
  pose proof (BuildGraph_collect_fold mapping (rangeKeys ρ 0 mapping) ∅ ∅) as [H1 H2].
  destruct (foldl _ _ (rangeKeys ρ 0 mapping)) as [g1 a1]. cbn [fst snd] in H1, H2.
  assert (Ha : ∀ x, x ∈ a1 ↔ x ∈ nodesOf mapping).
  { intros x. rewrite H2. unfold nodesOf.
    rewrite elem_of_union, elem_of_dom, elem_of_map_img. split.
    - intros [[]%not_elem_of_empty|(i & s & Hi & Hs & [->| ->])]; eauto.
    - intros [[s Hs]|[i Hi]]; right.
      + exists x, s. rewrite rangeKeys_elem by done. eauto.
      + exists i, x. rewrite rangeKeys_elem by done. eauto. }
  assert (Hc : childrenIn mapping n (rangeKeys ρ 0 mapping)
               ≡ₚ childrenIn mapping n (map fst (map_to_list mapping))).
  { unfold childrenIn, rangeKeys. by rewrite (Hok 0%nat _). }
  assert (Hg2 : BuildGraph_fill ρ g1 a1 !! n
                = if decide (n ∈ nodesOf mapping)
                  then Some (childrenIn mapping n (rangeKeys ρ 0 mapping)) else None).
  { unfold BuildGraph_fill. rewrite BuildGraph_fill_fold, H1, lookup_empty.
    destruct (childrenIn mapping n (rangeKeys ρ 0 mapping)) as [|i l] eqn:Ec.
    - destruct (decide (n ∈ nodesOf mapping)) as [Hn|Hn].
      + rewrite decide_True; [done|]. rewrite (Hok 1%nat _), elem_of_elements. by apply Ha.
      + rewrite decide_False; [done|]. rewrite (Hok 1%nat _), elem_of_elements. by rewrite Ha.
    - cbn. rewrite decide_True; [done|]. unfold nodesOf.
      rewrite elem_of_union, elem_of_map_img. right. exists i.
      assert (Hi : i ∈ childrenIn mapping n (rangeKeys ρ 0 mapping))
        by (rewrite Ec; apply list_elem_of_here).
      unfold childrenIn in Hi. by apply list_elem_of_filter in Hi as [? _]. }
  unfold BuildGraph_sort. rewrite BuildGraph_sort_fold by by apply rangeKeys_NoDup.
  rewrite Hg2. destruct (decide (n ∈ rangeKeys ρ 2 _)) as [Hin|Hin].
  - destruct (decide (n ∈ nodesOf mapping)); [|done]. cbn.
    by rewrite (sort_Ints_Permutation _ _ Hc).
  - rewrite rangeKeys_elem, Hg2 in Hin by done.
    destruct (decide (n ∈ nodesOf mapping)); [|done]. by destruct Hin.
Qed.

(** The graph does not depend on the order in which the runtime walks
    the maps; the order only shows in the roots that [findRoots]
    lists. *)
Lemma BuildGraph_order_irrelevant (ρ ρ' : MapOrder) (mapping : gmap Z Z) :
  MapOrder_ok ρ → MapOrder_ok ρ' → BuildGraph ρ mapping = BuildGraph ρ' mapping.
Proof.
  intros Hok Hok'. apply map_eq. intros n. by rewrite !BuildGraph_lookup.
Qed.

Lemma orderAsListed_ok : MapOrder_ok orderAsListed.
Proof. intros site ks. reflexivity. Qed.

Lemma orderReversed_ok : MapOrder_ok orderReversed.
Proof. intros site ks. cbn. symmetry. apply Permutation_rev. Qed.

(** C6.  The claim fails.  The graph that [BuildGraph] returns is the
    same for every order of the map walks, its children being sorted
    ([BuildGraph_order_irrelevant]); but the roots are printed in the
    order in which the runtime walks the graph map in [findRoots], and
    two walks of the same map may differ.  The graph of two goroutines
    with different creators is rendered in two ways. *)
Theorem PrintGraph_depends_on_map_order :
  MapOrder_ok orderAsListed ∧ MapOrder_ok orderReversed
  ∧ BuildGraph orderAsListed mapping_two_roots = BuildGraph orderReversed mapping_two_roots
  ∧ ∃ out1 out2,
      PrintGraph orderAsListed 3 EmptyString
        (BuildGraph orderAsListed mapping_two_roots) ∅ = Some out1
      ∧ PrintGraph orderReversed 3 EmptyString
          (BuildGraph orderReversed mapping_two_roots) ∅ = Some out2
      ∧ out1 ≠ out2.
Proof.
  split; [apply orderAsListed_ok|]. split; [apply orderReversed_ok|].
  split; [apply BuildGraph_order_irrelevant; auto using orderAsListed_ok, orderReversed_ok|].
  do 2 eexists. split; [vm_compute; reflexivity|]. split; [vm_compute; reflexivity|].
  discriminate.
Qed.

(** On a graph without cycles the printing ends: a depth of recursion
    above the rank of the node is enough. *)
Lemma printChildren_is_Some
    (print : string → Z → bool → gset Z → option (string * gset Z))
    (last i : nat) (children : list Z) (buff : string) (visited : gset Z) :
  (∀ child b l v, child ∈ children → is_Some (print b child l v)) →
  is_Some (printChildren print last i children buff visited).
Proof.
  revert i buff visited. induction children as [|child children IH];
    intros i buff visited Hprint; cbn [printChildren]; [done|].
  destruct (Hprint child buff (i =? last)%nat visited) as [[b v] ->];
    [apply list_elem_of_here|].
  apply IH. intros c b' l v' Hc. apply Hprint. by apply list_elem_of_further.
Qed.

Lemma printSubGraph_ranked (rank : Z → nat) (graph : gmap Z (list Z)) :
  ranked rank graph →
  ∀ fuel node buff prefix isLast defs visited,
    (rank node < fuel)%nat →
    is_Some (printSubGraph fuel buff node graph prefix isLast defs visited).
Proof.
  intros Hr. induction fuel as [|fuel IH];
    intros node buff prefix isLast defs visited Hlt; [lia|].
  cbn [printSubGraph]. destruct isLast;
    (destruct (graph !! node) as [children|] eqn:E; [|done];
     apply printChildren_is_Some; intros child b l v Hc; apply IH;
     specialize (Hr node children child E Hc); lia).
Qed.

Lemma PrintGraph_each_is_Some (rank : Z → nat) (graph : gmap Z (list Z))
    (fuel : nat) (defs : gmap Z Entry) (check : bool) (nodes : list Z)
    (st : option (string * gset Z)) :
  ranked rank graph → (∀ node, rank node < fuel)%nat → is_Some st →
  is_Some (PrintGraph_each fuel graph defs check nodes st).
Proof.
  intros Hr Hfuel. revert st. unfold PrintGraph_each.
  induction nodes as [|node nodes IH]; intros st Hst; cbn [foldl]; [done|].
  apply IH. destruct Hst as [[buff visited] ->].
  destruct (check && bool_decide (node ∈ visited)); [done|].
  by apply (printSubGraph_ranked rank).
Qed.

Lemma PrintGraph_ranked (ρ : MapOrder) (rank : Z → nat) (graph : gmap Z (list Z))
    (fuel : nat) (buff : string) (defs : gmap Z Entry) :
  ranked rank graph → (∀ node, rank node < fuel)%nat →
  is_Some (PrintGraph ρ fuel buff graph defs).
Proof.
  intros Hr Hfuel. unfold PrintGraph. apply fmap_is_Some.
  do 2 (apply (PrintGraph_each_is_Some rank); [done..|]). done.
Qed.

(** The graph of a mapping without cycles is ranked, so its rendering
    ends. *)
Lemma BuildGraph_ranked (ρ : MapOrder) (rank : Z → nat) (mapping : gmap Z Z) :
  MapOrder_ok ρ →
  (∀ item source, mapping !! item = Some source → (rank item < rank source)%nat) →
  ranked rank (BuildGraph ρ mapping).
Proof.
  intros Hok Hrank node children child Hnode Hchild.
  rewrite BuildGraph_lookup in Hnode by done.
  destruct (decide (node ∈ nodesOf mapping)); [|done]. injection Hnode as <-.
  unfold sort_Ints in Hchild. rewrite merge_sort_Permutation in Hchild.
  unfold childrenIn in Hchild. apply list_elem_of_filter in Hchild as [Hsrc _].
  by apply Hrank.
Qed.

(** [PrintGraph], on the graph of a mapping without cycles, returns:
    the recursion is no deeper than the longest chain of sources. *)
Lemma PrintGraph_acyclic_returns (ρ : MapOrder) (rank : Z → nat) (mapping : gmap Z Z)
    (fuel : nat) (buff : string) (defs : gmap Z Entry) :
  MapOrder_ok ρ →
  (∀ item source, mapping !! item = Some source → (rank item < rank source)%nat) →
  (∀ node, rank node < fuel)%nat →
  is_Some (PrintGraph ρ fuel buff (BuildGraph ρ mapping) defs).
Proof.
  intros Hok Hrank Hfuel. apply (PrintGraph_ranked ρ rank); [|done].
  by apply BuildGraph_ranked.
Qed.

Lemma MapOrder_ok_2 (ρ : MapOrder) (site : nat) (a b : Z) :
  MapOrder_ok ρ →
  rangeOrder ρ site [a; b] = [a; b] ∨ rangeOrder ρ site [a; b] = [b; a].
Proof.
  intros Hok. apply Permutation_length_2_inv. symmetry. apply Hok.
Qed.

(** A walk over a map with two keys takes them in one of two orders. *)
Ltac walk_two Hok :=
  match goal with
  | |- context [rangeOrder ?ρ ?site ?ks] =>
      let v := eval vm_compute in ks in
      replace ks with v by (vm_compute; reflexivity);
      match v with
      | [?a; ?b] => destruct (MapOrder_ok_2 ρ site a b Hok) as [-> | ->]
      end
  end.

(** Whatever the order of the walks, the graph of the cyclic mapping
    has the two nodes as child of each other, and no root. *)
Lemma BuildGraph_cycle (ρ : MapOrder) :
  MapOrder_ok ρ → BuildGraph ρ mapping_cycle = graph_cycle.
Proof.
  intros Hok. rewrite (BuildGraph_order_irrelevant ρ orderAsListed) by auto using orderAsListed_ok.
  vm_compute. reflexivity.
Qed.

Lemma findRoots_cycle (ρ : MapOrder) :
  MapOrder_ok ρ → findRoots ρ graph_cycle = [].
Proof.
  intros Hok. unfold findRoots.
  assert (E1 : findRoots_isChild ρ graph_cycle = {[1; 2]}).
  { unfold findRoots_isChild, rangeKeys.
    walk_two Hok; vm_compute; reflexivity. }
  rewrite E1. unfold rangeKeys.
  walk_two Hok; vm_compute; reflexivity.
Qed.

(** On the cyclic graph [printSubGraph] never returns: it prints a
    node, then its child, then the child of the child, which is the
    node again, without looking at [visited]. *)
Lemma printSubGraph_cycle (fuel : nat) (buff : string) (node : Z) (prefix : string)
    (isLast : bool) (defs : gmap Z Entry) (visited : gset Z) :
  node = 1 ∨ node = 2 →
  printSubGraph fuel buff node graph_cycle prefix isLast defs visited = None.
Proof.
  revert buff node prefix isLast visited.
  induction fuel as [|fuel IH]; intros buff node prefix isLast visited Hnode; [reflexivity|].
  cbn [printSubGraph].
  assert (E : ∃ child, graph_cycle !! node = Some [child] ∧ (child = 1 ∨ child = 2)).
  { destruct Hnode as [-> | ->]; [exists 2 | exists 1]; split; auto. }
  destruct E as (child & -> & Hchild).
  destruct isLast; cbn [printChildren]; rewrite (IH _ child _ _ _ Hchild); reflexivity.
Qed.

(** C1.  The claim fails on the cyclic mapping {1:2, 2:1}: whatever
    the order in which the runtime walks the maps, no depth of
    recursion is enough for [PrintGraph] to return.  The graph has no
    root, so the first unvisited node is printed as a new root, and
    [printSubGraph] marks nodes as visited but never consults
    [visited] before it descends. *)
Theorem PrintGraph_cycle_never_returns
    (ρ : MapOrder) (fuel : nat) (buff : string) (defs : gmap Z Entry) :
  MapOrder_ok ρ →
  PrintGraph ρ fuel buff (BuildGraph ρ mapping_cycle) defs = None.
Proof.
  intros Hok. rewrite (BuildGraph_cycle ρ Hok). unfold PrintGraph.
  rewrite (findRoots_cycle ρ Hok). cbn [PrintGraph_each foldl]. unfold rangeKeys.
  walk_two Hok; unfold PrintGraph_each; cbn [foldl andb];
    rewrite bool_decide_eq_false_2 by apply not_elem_of_empty;
    rewrite printSubGraph_cycle by auto; reflexivity.
Qed.

Lemma PrintGraph_cycle_never_returns_witness :
  PrintGraph orderAsListed 1000 EmptyString (BuildGraph orderAsListed mapping_cycle) ∅ = None.
Proof.
  apply (PrintGraph_cycle_never_returns orderAsListed 1000 EmptyString ∅).
  intros site ks. reflexivity.
Defined.

(** ** Creator lines *)

Lemma takeDigits_allDigits (s : string) :
  allDigits s = true → sourceGoroutineRe.takeDigits s = s.
Proof.
  induction s as [|c s IH]; [reflexivity|]. cbn.
  destruct (Strconv.isDigit c); [|discriminate]. intros H. by rewrite IH.
Qed.

(** A text without match, followed by " i...", has no match that
    starts in it. *)
Lemma matchAt_app (Y R : string) :
  sourceGoroutineRe.matchAt Y = None →
  sourceGoroutineRe.matchAt (Y +:+ String " " (String "i" R)) = None.
Proof.
  unfold sourceGoroutineRe.matchAt.
  do 10 (destruct Y as [|? Y]; [reflexivity|];
         rewrite sapp_cons; cbn [Strings.HasPrefix];
         match goal with |- context [Ascii.eqb ?a ?b] => destruct (Ascii.eqb a b) end;
         [|reflexivity]).
  cbn [Strings.drop].
  destruct Y as [|c Y]; [reflexivity|]. rewrite sapp_cons. cbn.
  by destruct (Strconv.isDigit c).
Qed.

Lemma FindStringSubmatch_app (X R : string) :
  sourceGoroutineRe.FindStringSubmatch X = [] →
  sourceGoroutineRe.FindStringSubmatch (X +:+ String " " (String "i" R))
  = sourceGoroutineRe.FindStringSubmatch (String " " (String "i" R)).
Proof.
  induction X as [|c X IH]; [reflexivity|].
  intros HX. cbn [sourceGoroutineRe.FindStringSubmatch] in HX.
  destruct (sourceGoroutineRe.matchAt (String c X)) eqn:E; [discriminate|].
  pose proof (matchAt_app _ R E) as E'. rewrite sapp_cons in E' |- *.
  cbn [sourceGoroutineRe.FindStringSubmatch]. rewrite E'. by apply IH.
Qed.

Lemma FindStringSubmatch_creatorLine (X G : string) :
  sourceGoroutineRe.FindStringSubmatch X = [] →
  G ≠ EmptyString → allDigits G = true →
  sourceGoroutineRe.FindStringSubmatch (creatorLine X G) = ["goroutine " +:+ G; G].
Proof.
  intros HX HG Hd. unfold creatorLine.
  rewrite !sapp_cons, !sapp_nil_l.
  do 11 (cbn [sourceGoroutineRe.FindStringSubmatch]; unfold sourceGoroutineRe.matchAt at 1;
         cbn [Strings.HasPrefix Ascii.eqb Bool.eqb]).
  rewrite FindStringSubmatch_app by done.
  do 4 (cbn [sourceGoroutineRe.FindStringSubmatch]; unfold sourceGoroutineRe.matchAt at 1;
        cbn [Strings.HasPrefix Ascii.eqb Bool.eqb]).
  cbn [sourceGoroutineRe.FindStringSubmatch]. unfold sourceGoroutineRe.matchAt.
  cbn [Strings.HasPrefix Ascii.eqb Bool.eqb Strings.drop].
  rewrite (takeDigits_allDigits _ Hd). by destruct G.
Qed.

(** A text in which " in goroutine" does not start at the first byte
    does not get such a start by what follows the text. *)
Lemma HasPrefix_in_goroutine_app (Y R : string) :
  Y ≠ EmptyString →
  Strings.HasPrefix Y " in goroutine" = false →
  Strings.HasPrefix (Y +:+ " in goroutine" +:+ R) " in goroutine" = false.
Proof.
  intros HY. destruct Y as [|c Y]; [done|]. clear HY.
  rewrite !sapp_cons, sapp_nil_l.
  cbn [Strings.HasPrefix]. destruct (Ascii.eqb c " "); [|reflexivity].
  do 12 (destruct Y as [|? Y]; [intros _; reflexivity|];
         rewrite sapp_cons; cbn [Strings.HasPrefix];
         match goal with |- context [Ascii.eqb ?a ?b] => destruct (Ascii.eqb a b) end;
         [|reflexivity]).
  intros H. destruct Y; discriminate H.
Qed.

Lemma Index_in_goroutine_app (X R : string) :
  Strings.Index X " in goroutine" = None →
  Strings.Index (X +:+ " in goroutine" +:+ R) " in goroutine" = Some (Strings.len X).
Proof.
  induction X as [|c X IH]; [reflexivity|].
  intros H. pose proof H as H'. cbn [Strings.Index] in H'.
  destruct (Strings.HasPrefix (String c X) " in goroutine") eqn:E; [discriminate|].
  destruct (Strings.Index X " in goroutine") eqn:E'; [discriminate|].
  pose proof (HasPrefix_in_goroutine_app (String c X) R ltac:(discriminate) E) as E2.
  rewrite sapp_cons in E2 |- *. cbn [Strings.Index]. rewrite E2, IH by done.
  reflexivity.
Qed.

Lemma parseFuncName_creatorLine (X G : string) :
  X ≠ EmptyString →
  Strings.Index X " in goroutine" = None →
  parseFuncName (creatorLine X G) = Ok (X, true).
Proof.
  intros HX Hi. unfold parseFuncName, creatorLine, Strings.CutPrefix.
  rewrite !sapp_cons, !sapp_nil_l. cbn [Strings.HasPrefix Ascii.eqb Bool.eqb Strings.len String.length Strings.drop].
  pose proof (Index_in_goroutine_app X (String " " G) Hi) as E.
  rewrite !sapp_cons, !sapp_nil_l in E. rewrite E.
  pose proof (take_app_len X (" in goroutine " +:+ G)) as E2.
  rewrite !sapp_cons, !sapp_nil_l in E2. rewrite E2.
  by destruct X.
Qed.

Lemma creatorLine_shape (X G : string) :
  isHeader (creatorLine X G) = false
  ∧ (Strings.len (creatorLine X G) =? 0)%nat = false
  ∧ isElided (creatorLine X G) = false
  ∧ Strings.TrimPrefix (creatorLine X G) "created by " = X +:+ " in goroutine " +:+ G.
Proof.
  unfold creatorLine. rewrite !sapp_cons, !sapp_nil_l. repeat split.
Qed.

Lemma startsWithTab_not_header (bs : string) :
  startsWithTab bs = true → isHeader bs = false.
Proof.
  destruct bs as [|c bs]; [done|]. unfold isHeader. cbn.
  destruct (Ascii.eqb_spec c TAB) as [->|]; [reflexivity|discriminate].
Qed.

Lemma plainFrames_no_header (body : list string) :
  plainFrames body = true → Forall (fun l => isHeader l = false) body.
Proof.
  functional induction (plainFrames body); try discriminate; auto.
  intros H. repeat constructor; auto using startsWithTab_not_header.
Qed.

(** The loop runs through a body of ordinary frames and goes on with
    the lines after it; the entries so far are no source entries. *)
Lemma plainFrames_run (body tail : list string) (v : locals) :
  plainFrames body = true →
  Forall (fun e => IsSource e = false) (l_entries v) →
  IsSource (l_currentEntry v) = false →
  ∃ v', parseStack_lines (body ++ tail) v = parseStack_lines tail v'
        ∧ Forall (fun e => IsSource e = false) (l_entries v').
Proof.
  revert v. functional induction (plainFrames body); intros v Hb Hes Hcur;
    try discriminate.
  - eauto.
  - cbn [app parseStack_lines]. rew_hyps. by apply IHb.
  - cbn [app parseStack_lines]. rew_hyps. by apply IHb.
  - cbn [app parseStack_lines]. rew_hyps. apply IHb; [done| |done].
    cbn. apply Forall_app. split; [done|]. by repeat constructor.
Qed.

Lemma creatorLine_run (X G loc : string) (tail : list string) (v : locals) :
  X ≠ EmptyString →
  Strings.Index X " in goroutine" = None →
  startsWithTab loc = true →
  parseStack_lines (creatorLine X G :: loc :: tail) v
  = (tail, Ok (recordLocation
                 (recordCall (writeLine v (creatorLine X G)) (creatorLine X G) X true) loc)).
Proof.
  intros HX Hi Hloc. cbn [parseStack_lines].
  destruct (creatorLine_shape X G) as (-> & -> & -> & _).
  by rewrite (parseFuncName_creatorLine X G HX Hi), Hloc.
Qed.

Lemma SourceEntry_entries_last (es : list Entry) (src : Entry) :
  Forall (fun e => IsSource e = false) es → IsSource src = true →
  SourceEntry_entries (es ++ [src]) = src.
Proof.
  intros Hes Hsrc. induction Hes as [|e es He _ IH]; cbn; [by rewrite Hsrc|].
  by rewrite He.
Qed.

Lemma SourceGoroutineID_entries_last (es : list Entry) (src : Entry) (G : string) (g : Z) :
  Forall (fun e => IsSource e = false) es → IsSource src = true →
  sourceGoroutineRe.FindStringSubmatch (FunctionCall src) = ["goroutine " +:+ G; G] →
  Strconv.Atoi G = Some g →
  SourceGoroutineID_entries (es ++ [src]) = g.
Proof.
  intros Hes Hsrc Hm Ha. induction Hes as [|e es He _ IH]; cbn.
  - rewrite Hsrc, Hm. cbn. by rewrite Ha.
  - by rewrite He.
Qed.

(** C3, as stated, fails: the call text of the creator entry is the
    whole creator line, so without the prefix "created by " it still
    ends with " in goroutine G". *)
Lemma creator_call_text_keeps_goroutine_part :
  ∃ s1 s2, ParseStack dump_spawn = Some ([s1; s2], None)
           ∧ SourceGoroutineID s2 = 1
           ∧ Strings.TrimPrefix (FunctionCall (SourceEntry s2)) "created by "
             = "main.spawn in goroutine 1"
           ∧ Strings.TrimPrefix (FunctionCall (SourceEntry s2)) "created by "
             ≠ "main.spawn".
Proof.
  do 2 eexists. split; [vm_compute; reflexivity|].
  split; [reflexivity|]. split; [reflexivity|]. discriminate.
Qed.

(** C3 (amended).  For every dump in which a stack with a well-formed
    header and a body of ordinary frames is followed by a creator line
    "created by X in goroutine G" and a location line that begins with
    a tab, where X is not empty and holds neither " in goroutine" nor
    a match of [goroutine (\d+)], and G is a sequence of decimal digits
    whose value [g] fits [int]: [Parse] returns the stack, its
    [SourceGoroutineID] is [g], its source entry is the creator line
    with that location, the call text of the entry without the prefix
    "created by " is "X in goroutine G", and X is the function name
    that [parseFuncName] finds in the call text. *)
Theorem creator_line_gives_source_goroutine
    (buf : string) (pre body post : list string) (header X G loc state : string)
    (id g : Z) :
  splitLines EmptyString buf
  = pre ++ header :: body ++ creatorLine X G :: loc :: post →
  isHeader header = true →
  parseGoStackHeader header = Ok (id, state) →
  plainFrames body = true →
  startsWithTab loc = true →
  X ≠ EmptyString →
  Strings.Index X " in goroutine" = None →
  sourceGoroutineRe.FindStringSubmatch X = [] →
  allDigits G = true →
  Strconv.Atoi G = Some g →
  ∃ stacks err s,
    ParseStack buf = Some (stacks, err) ∧ s ∈ stacks
    ∧ ID s = id ∧ State s = state
    ∧ SourceEntry s
      = {| FunctionCall := creatorLine X G; Location := loc; IsSource := true |}
    ∧ SourceGoroutineID s = g
    ∧ Strings.TrimPrefix (FunctionCall (SourceEntry s)) "created by "
      = X +:+ " in goroutine " +:+ G
    ∧ parseFuncName (FunctionCall (SourceEntry s)) = Ok (X, true).
Proof.
  intros Hlines Hh Hhead Hbody Hloc HX Hi Hre Hd Ha.
  rewrite ParseStack_lines, Hlines, ParseLines_chunks.
  rewrite (chunks_header _ _ _ Hh). cbn [fst snd].
  set (tl := body ++ creatorLine X G :: loc :: post).
  assert (Etl : (chunks tl).1 = body ++ creatorLine X G :: loc :: (chunks post).1).
  { unfold tl.
    replace (body ++ creatorLine X G :: loc :: post)
      with ((body ++ [creatorLine X G; loc]) ++ post) by by rewrite <- app_assoc.
    rewrite chunks_no_header; [by rewrite <- app_assoc|].
    apply Forall_app. split; [by apply plainFrames_no_header|].
    constructor; [apply creatorLine_shape|].
    constructor; [by apply startsWithTab_not_header | constructor]. }
  rewrite Etl. set (rest := (chunks post).1).
  destruct (plainFrames_run body (creatorLine X G :: loc :: rest) locals_init Hbody)
    as (v' & Hrun & Hes); [constructor|reflexivity|].
  rewrite (creatorLine_run X G loc rest v' HX Hi Hloc) in Hrun.
  set (src := {| FunctionCall := creatorLine X G; Location := loc; IsSource := true |}).
  set (v := recordLocation _ loc) in Hrun.
  assert (Hentries : l_entries v = l_entries v' ++ [src]).
  { unfold v, src. cbn. by destruct (l_currentEntry v'). }
  set (s := {| Stack_id := id; Stack_state := state;
               firstFunction := l_firstFunction v; allFunctions := l_funcs v;
               fullStack := l_fullStack v; entries := l_entries v |}).
  assert (Hres : stackResult header (body ++ creatorLine X G :: loc :: rest) = Ok s).
  { unfold stackResult. by rewrite Hhead, Hrun. }
  assert (Hm : sourceGoroutineRe.FindStringSubmatch (FunctionCall src)
               = ["goroutine " +:+ G; G]).
  { apply FindStringSubmatch_creatorLine; [done| |done]. intros ->. discriminate Ha. }
  assert (Hsrc : SourceEntry s = src).
  { unfold SourceEntry. cbn [entries s]. rewrite Hentries.
    by apply SourceEntry_entries_last. }
  do 3 eexists. split; [reflexivity|]. split.
  { apply list_elem_of_omap. exists (Ok s). split; [|reflexivity].
    rewrite fmap_app, fmap_cons. cbn [fst snd]. rewrite Hres.
    apply elem_of_app. right. apply list_elem_of_here. }
  split; [reflexivity|]. split; [reflexivity|]. split; [exact Hsrc|]. split.
  { unfold SourceGoroutineID. cbn [entries s]. rewrite Hentries.
    by apply (SourceGoroutineID_entries_last _ src G). }
  rewrite Hsrc. cbn [FunctionCall src]. split; [apply creatorLine_shape|].
  by apply parseFuncName_creatorLine.
Qed.

Lemma creator_line_gives_source_goroutine_witness :
  ∃ stacks err s,
    ParseStack dump_spawn = Some (stacks, err) ∧ s ∈ stacks
    ∧ ID s = 2 ∧ State s = "chan receive"
    ∧ SourceEntry s
      = {| FunctionCall := creatorLine "main.spawn" "1";
           Location := String TAB "/a/b.go:20 +0x2"; IsSource := true |}
    ∧ SourceGoroutineID s = 1
    ∧ Strings.TrimPrefix (FunctionCall (SourceEntry s)) "created by "
      = "main.spawn" +:+ " in goroutine " +:+ "1"
    ∧ parseFuncName (FunctionCall (SourceEntry s)) = Ok ("main.spawn", true).
Proof.
  apply (creator_line_gives_source_goroutine dump_spawn
           ["goroutine 1 [running]:"; "main.foo()"; String TAB "/a/b.go:10 +0x1"]
           [] [] "goroutine 2 [chan receive]:" "main.spawn" "1"
           (String TAB "/a/b.go:20 +0x2") "chan receive" 2 1).
  - vm_compute. reflexivity.
  - reflexivity.
  - vm_compute. reflexivity.
  - reflexivity.
  - reflexivity.
  - discriminate.
  - vm_compute. reflexivity.
  - vm_compute. reflexivity.
  - reflexivity.
  - vm_compute. reflexivity.
Defined.
(** ** Detection *)

(** A sample of the calling goroutine adds only events of that kind
    to the trace. *)
Lemma getStackBuffer_loop_trace (host : Host) (fuel : nat) (i : Z) (all : bool)
    (tr : list event) :
  ∃ k, fst (getStackBuffer_loop host fuel i all tr) = tr ++ replicate k (evStack all).
Proof.
  revert i tr. induction fuel as [|fuel IH]; intros i tr.
  - exists O. cbn. by rewrite app_nil_r.
  - cbn [getStackBuffer_loop]. destruct (_ <? _).
    + by exists 1%nat.
    + destruct (IH (i * 2) (tr ++ [evStack all])) as [k Hk].
      exists (S k). by rewrite Hk, <- app_assoc.
Qed.

Lemma Current_trace (host : Host) (fuel : nat) :
  ∃ k, fst (Current host fuel []) = replicate k (evStack false).
Proof.
  destruct (getStackBuffer_loop_trace host fuel _defaultBufferSize false []) as [k Hk].
  exists k. unfold Current, getStacks, getStackBuffer, bind.
  destruct (getStackBuffer_loop _ _ _ _ _) as [tr [trace|msg|]]; cbn [fst] in *; try done.
  destruct (ParseStack trace) as [[sts [e|]]|]; cbn; try done.
  by destruct sts.
Qed.

(** C8.  When the options configure a cleanup callback, [Find] and
    [FindAndPrettyPrint] do nothing but read the stack of the calling
    goroutine (to learn its id): every event of the call is a sample
    of the calling goroutine only, so there is neither a sample of all
    goroutines nor a consultation of the retry policy; and the call
    returns the configuration error, provided reading the stack of
    the calling goroutine returned. *)
Theorem Find_rejects_cleanup_before_sampling
    (host : Host) (Colors : aurora) (TrimSpace Sprintf0 : string → string)
    (defaults : opts) (ρ : MapOrder) (fuel : nat) (options : list Option) :
  cleanup (buildOpts defaults options) ≠ None →
  let plain := Find host defaults fuel options [] in
  let fancy := FindAndPrettyPrint host Colors TrimSpace Sprintf0 defaults ρ fuel options [] in
  (∀ e, e ∈ fst plain → e = evStack false)
  ∧ (∀ e, e ∈ fst fancy → e = evStack false)
  ∧ (evStack true ∉ fst plain) ∧ (evStack true ∉ fst fancy)
  ∧ (∀ i, (evRetry i ∉ fst plain) ∧ (evRetry i ∉ fst fancy))
  ∧ (∀ cur, snd (Current host fuel []) = Returned cur →
            snd plain = Returned (Some errCleanup)
            ∧ snd fancy = Returned (Some errCleanup)).
Proof.
  intros Hc plain fancy.
  destruct (cleanup (buildOpts defaults options)) as [f|] eqn:Ecl; [clear Hc|done].
  destruct (Current_trace host fuel) as [k Htr].
  assert (Hplain : plain = match Current host fuel [] with
                           | (tr, Returned _) => (tr, Returned (Some errCleanup))
                           | (tr, Panicked msg) => (tr, Panicked msg)
                           | (tr, OutOfFuel) => (tr, OutOfFuel)
                           end).
  { unfold plain, Find, bind. destruct (Current host fuel []) as [tr [cur|msg|]]; [|done..].
    by rewrite Ecl. }
  assert (Hfancy : fancy = match Current host fuel [] with
                           | (tr, Returned _) => (tr, Returned (Some errCleanup))
                           | (tr, Panicked msg) => (tr, Panicked msg)
                           | (tr, OutOfFuel) => (tr, OutOfFuel)
                           end).
  { unfold fancy, FindAndPrettyPrint, bind.
    destruct (Current host fuel []) as [tr [cur|msg|]]; [|done..]. by rewrite Ecl. }
  clearbody plain fancy. subst plain fancy.
  destruct (Current host fuel []) as [tr o]. cbn [fst snd] in Htr. subst tr.
  assert (Hev : ∀ e, e ∈ replicate k (evStack false) → e = evStack false).
  { intros e He. by apply elem_of_replicate in He as [-> _]. }
  destruct o as [cur|msg|]; cbn [fst snd];
    repeat split; try done;
    try (intros He; apply Hev in He; discriminate).
Qed.

Lemma Find_rejects_cleanup_before_sampling_witness :
  let plain := Find host_one_goroutine defaults_plain 5 [Cleanup (fun _ => tt)] [] in
  let fancy := FindAndPrettyPrint host_one_goroutine noColors (fun s => s) (fun s => s)
                 defaults_plain orderAsListed 5 [Cleanup (fun _ => tt)] [] in
  (∀ e, e ∈ fst plain → e = evStack false)
  ∧ (∀ e, e ∈ fst fancy → e = evStack false)
  ∧ (evStack true ∉ fst plain) ∧ (evStack true ∉ fst fancy)
  ∧ (∀ i, (evRetry i ∉ fst plain) ∧ (evRetry i ∉ fst fancy))
  ∧ (∀ cur, snd (Current host_one_goroutine 5 []) = Returned cur →
            snd plain = Returned (Some errCleanup)
            ∧ snd fancy = Returned (Some errCleanup)).
Proof.
  apply (Find_rejects_cleanup_before_sampling host_one_goroutine noColors (fun s => s)
           (fun s => s) defaults_plain orderAsListed 5 [Cleanup (fun _ => tt)]).
  simpl. discriminate.
Defined.

(** With a cleanup callback and the host of the example, both entry
    points return the configuration error after one sample of the
    calling goroutine. *)
Lemma Find_cleanup_example :
  Find host_one_goroutine defaults_plain 5 [Cleanup (fun _ => tt)] []
  = ([evStack false], Returned (Some errCleanup))
  ∧ FindAndPrettyPrint host_one_goroutine noColors (fun s => s) (fun s => s)
      defaults_plain orderAsListed 5 [Cleanup (fun _ => tt)] []
    = ([evStack false], Returned (Some errCleanup)).
Proof. split; vm_compute; reflexivity. Qed.

(** Without cleanup callback, one leaked goroutine and a policy that
    never retries: one sample of all goroutines, one consultation of
    the policy, and the error with the leaked stack. *)
Lemma Find_leak_example :
  ∃ msg,
    Find {| runtime_Stack := fun all _ => if all then dump_spawn else dump_one_frame |}
         defaults_plain 5 [] []
    = ([evStack false; evStack true; evRetry 0], Returned (Some (errFormat msg))).
Proof. eexists. vm_compute. reflexivity. Qed.

(** The conditions on X and G are needed: the source id is the first
    match of [goroutine (\d+)] in the call text, which can lie in X,
    and a G that does not fit [int] gives no source id. *)
Lemma creator_line_conditions_needed :
  (∃ s, ParseStack dump_creator_named_goroutine = Some ([s], None)
        ∧ SourceGoroutineID s = 9)
  ∧ (∃ s, ParseStack dump_creator_id_too_large = Some ([s], None)
          ∧ SourceGoroutineID s = -1).
Proof.
  split; eexists; (split; [vm_compute; reflexivity|reflexivity]).
Qed.

(** * Further properties of the code *)

(** ** The dependency graph *)

Lemma BuildGraph_node_children (ρ : MapOrder) (mapping : gmap Z Z) (n : Z) :
  MapOrder_ok ρ →
  (is_Some (BuildGraph ρ mapping !! n)
   ↔ is_Some (mapping !! n) ∨ ∃ item, mapping !! item = Some n)
  ∧ ∀ children, BuildGraph ρ mapping !! n = Some children →
                ∀ item, item ∈ children ↔ mapping !! item = Some n.
Proof.
  intros Hok. rewrite (BuildGraph_lookup ρ mapping n Hok). split.
  - unfold nodesOf. destruct (decide _) as [Hn|Hn];
      rewrite elem_of_union, elem_of_dom, elem_of_map_img in Hn.
    + split; [done|]. by intros _.
    + split; [by intros []|]. intros H. by destruct Hn.
  - intros children Hc item. destruct (decide _); [|done]. injection Hc as <-.
    unfold sort_Ints. rewrite merge_sort_Permutation. unfold childrenIn.
    rewrite list_elem_of_filter, list_elem_of_fmap. split; [tauto|].
    intros Hi. split; [done|]. exists (item, n). split; [done|].
    by apply elem_of_map_to_list.
Qed.

(** [BuildGraph]: the graph has an entry exactly for the nodes of the
    mapping (its keys and its values), and the children of a node are
    exactly the items whose source it is. *)
Theorem BuildGraph_children (ρ : MapOrder) (mapping : gmap Z Z) (n : Z) :
  MapOrder_ok ρ →
  (is_Some (BuildGraph ρ mapping !! n)
   ↔ is_Some (mapping !! n) ∨ ∃ item, mapping !! item = Some n)
  ∧ ∀ children, BuildGraph ρ mapping !! n = Some children →
                ∀ item, item ∈ children ↔ mapping !! item = Some n.
Proof. apply BuildGraph_node_children. Qed.

Lemma BuildGraph_children_witness :
  (is_Some (BuildGraph orderReversed mapping_two_roots !! 1)
   ↔ is_Some (mapping_two_roots !! 1) ∨ ∃ item, mapping_two_roots !! item = Some 1)
  ∧ ∀ children, BuildGraph orderReversed mapping_two_roots !! 1 = Some children →
                ∀ item, item ∈ children ↔ mapping_two_roots !! item = Some 1.
Proof.
  apply (BuildGraph_children orderReversed mapping_two_roots 1).
  intros site ks. simpl. symmetry. apply Permutation_rev.
Defined.

(** [BuildGraph]: the children of every node are in ascending order,
    without repetition. *)
Theorem BuildGraph_children_sorted (ρ : MapOrder) (mapping : gmap Z Z) (n : Z)
    (children : list Z) :
  MapOrder_ok ρ →
  BuildGraph ρ mapping !! n = Some children →
  Sorted Z.le children ∧ NoDup children.
Proof.
  intros Hok. rewrite (BuildGraph_lookup ρ mapping n Hok).
  destruct (decide _); [|done]. intros [= <-]. unfold sort_Ints. split.
  - apply Sorted_merge_sort; apply _.
  - rewrite merge_sort_Permutation. unfold childrenIn. apply NoDup_filter.
    apply NoDup_fst_map_to_list.
Qed.

Lemma BuildGraph_children_sorted_witness :
  Sorted Z.le [3; 4; 5] ∧ NoDup [3; 4; 5].
Proof.
  apply (BuildGraph_children_sorted orderReversed
           (<[5 := 1]> (<[3 := 1]> (<[4 := 1]> ∅))) 1 [3; 4; 5]).
  - intros site ks. simpl. symmetry. apply Permutation_rev.
  - vm_compute. reflexivity.
Defined.


Lemma findRoots_children_fold (children : list Z) (acc : gset Z) (c : Z) :
  c ∈ foldl (fun (isChild : gset Z) child => {[child]} ∪ isChild) acc children
  ↔ c ∈ acc ∨ c ∈ children.
Proof.
  revert acc. induction children as [|x l IH]; intros acc; cbn [foldl].
  - rewrite elem_of_nil. tauto.
  - rewrite IH, elem_of_union, elem_of_singleton, elem_of_cons. tauto.
Qed.

Lemma findRoots_isChild_fold (graph : gmap Z (list Z)) (ks : list Z) (acc : gset Z) (c : Z) :
  c ∈ foldl (fun (isChild : gset Z) node =>
               foldl (fun (isChild : gset Z) child => {[child]} ∪ isChild) isChild
                     (default [] (graph !! node))) acc ks
  ↔ c ∈ acc ∨ ∃ n, n ∈ ks ∧ c ∈ default [] (graph !! n).
Proof.
  revert acc. induction ks as [|k ks IH]; intros acc; cbn [foldl].
  - split; [auto|]. intros [?|(n & []%elem_of_nil & _)]. done.
  - rewrite IH, findRoots_children_fold. split.
    + intros [[?|?]|(n & Hn & Hc)]; [tauto| |].
      * right. exists k. split; [apply list_elem_of_here|done].
      * right. exists n. split; [by apply list_elem_of_further|done].
    + intros [?|(n & Hn & Hc)]; [tauto|].
      apply elem_of_cons in Hn as [->|Hn]; [tauto|]. right. eauto.
Qed.

Lemma findRoots_isChild_spec (ρ : MapOrder) (graph : gmap Z (list Z)) (c : Z) :
  MapOrder_ok ρ →
  c ∈ findRoots_isChild ρ graph ↔ ∃ n children, graph !! n = Some children ∧ c ∈ children.
Proof.
  intros Hok. unfold findRoots_isChild. rewrite findRoots_isChild_fold. split.
  - intros [[]%not_elem_of_empty|(n & Hn & Hc)].
    apply rangeKeys_elem in Hn as [children Hn]; [|done]. rewrite Hn in Hc. eauto.
  - intros (n & children & Hn & Hc). right. exists n.
    rewrite rangeKeys_elem, Hn by done. eauto.
Qed.

Lemma findRoots_fold (isChild : gset Z) (ks acc : list Z) :
  foldl (fun (roots : list Z) node =>
           if bool_decide (node ∈ isChild) then roots else roots ++ [node]) acc ks
  = acc ++ filter (fun node => node ∉ isChild) ks.
Proof.
  revert acc. induction ks as [|k ks IH]; intros acc; cbn [foldl].
  - by rewrite app_nil_r.
  - rewrite IH, filter_cons. destruct (decide (k ∈ isChild)) as [Hk|Hk].
    + rewrite bool_decide_eq_true_2 by done. by rewrite decide_False by tauto.
    + rewrite bool_decide_eq_false_2 by done. rewrite decide_True by done.
      by rewrite <- app_assoc.
Qed.

Lemma findRoots_char (ρ : MapOrder) (graph : gmap Z (list Z)) :
  MapOrder_ok ρ →
  NoDup (findRoots ρ graph)
  ∧ ∀ r, r ∈ findRoots ρ graph
         ↔ is_Some (graph !! r)
           ∧ ∀ n children, graph !! n = Some children → r ∉ children.
Proof.
  intros Hok. unfold findRoots. rewrite findRoots_fold. cbn [app]. split.
  - apply NoDup_filter. by apply rangeKeys_NoDup.
  - intros r. rewrite list_elem_of_filter, rangeKeys_elem, findRoots_isChild_spec by done.
    split.
    + intros [Hr Hs]. split; [done|]. intros n children Hn Hc. apply Hr. eauto.
    + intros [Hs Hr]. split; [|done]. intros (n & children & Hn & Hc). by eapply Hr.
Qed.

(** [findRoots]: the roots are the nodes of the graph that are in the
    children of no node; each is listed once. *)
Theorem findRoots_spec (ρ : MapOrder) (graph : gmap Z (list Z)) :
  MapOrder_ok ρ →
  NoDup (findRoots ρ graph)
  ∧ ∀ r, r ∈ findRoots ρ graph
         ↔ is_Some (graph !! r)
           ∧ ∀ n children, graph !! n = Some children → r ∉ children.
Proof. apply findRoots_char. Qed.

Lemma findRoots_spec_witness :
  NoDup (findRoots orderReversed graph_cycle)
  ∧ ∀ r, r ∈ findRoots orderReversed graph_cycle
         ↔ is_Some (graph_cycle !! r)
           ∧ ∀ n children, graph_cycle !! n = Some children → r ∉ children.
Proof.
  apply (findRoots_spec orderReversed graph_cycle).
  intros site ks. simpl. symmetry. apply Permutation_rev.
Defined.

Lemma findRoots_BuildGraph_elem (ρ : MapOrder) (mapping : gmap Z Z) (r : Z) :
  MapOrder_ok ρ →
  r ∈ findRoots ρ (BuildGraph ρ mapping)
  ↔ (∃ item, mapping !! item = Some r) ∧ mapping !! r = None.
Proof.
  intros Hok. destruct (findRoots_char ρ (BuildGraph ρ mapping) Hok) as [_ ->].
  destruct (BuildGraph_node_children ρ mapping r Hok) as [-> _]. split.
  - intros [Hnode Hchild]. destruct (mapping !! r) as [n|] eqn:Er.
    + exfalso. destruct (BuildGraph_node_children ρ mapping n Hok) as [Hn Hc].
      destruct Hn as [_ [children Hn]]; [eauto|].
      apply (Hchild n children Hn). by apply (Hc children Hn).
    + destruct Hnode as [[? [=]]|?]. done.
  - intros [Hsrc Hr]. split; [auto|]. intros n children Hn Hc.
    destruct (BuildGraph_node_children ρ mapping n Hok) as [_ Hmem].
    apply (Hmem children Hn) in Hc. congruence.
Qed.

(** The roots of the graph of a mapping are the sources that are no
    item themselves (among them the "no source" id [-1]); which roots
    there are does not depend on the order of the map walks, only
    their sequence does. *)
Theorem findRoots_BuildGraph (ρ ρ' : MapOrder) (mapping : gmap Z Z) :
  MapOrder_ok ρ → MapOrder_ok ρ' →
  (∀ r, r ∈ findRoots ρ (BuildGraph ρ mapping)
        ↔ (∃ item, mapping !! item = Some r) ∧ mapping !! r = None)
  ∧ findRoots ρ (BuildGraph ρ mapping) ≡ₚ findRoots ρ' (BuildGraph ρ' mapping).
Proof.
  intros Hok Hok'. split; [intros r; by apply findRoots_BuildGraph_elem|].
  apply NoDup_Permutation; try (by apply findRoots_char).
  intros r. by rewrite !findRoots_BuildGraph_elem.
Qed.

Lemma findRoots_BuildGraph_witness :
  (∀ r, r ∈ findRoots orderAsListed (BuildGraph orderAsListed mapping_two_roots)
        ↔ (∃ item, mapping_two_roots !! item = Some r) ∧ mapping_two_roots !! r = None)
  ∧ findRoots orderAsListed (BuildGraph orderAsListed mapping_two_roots)
    ≡ₚ findRoots orderReversed (BuildGraph orderReversed mapping_two_roots).
Proof.
  apply (findRoots_BuildGraph orderAsListed orderReversed mapping_two_roots).
  - intros site ks. reflexivity.
  - intros site ks. simpl. symmetry. apply Permutation_rev.
Defined.

(** The loop over the children keeps the text, the visited nodes and
    an invariant [I] of the visited nodes when each call does, and
    leaves every child visited. *)
Lemma printChildren_grows
    (print : string → Z → bool → gset Z → option (string * gset Z))
    (I : gset Z → Prop)
    (last i : nat) (children : list Z) (buff buff' : string) (visited visited' : gset Z) :
  (∀ b c l v b' v', c ∈ children → print b c l v = Some (b', v') →
                    (∃ out, b' = b +:+ out) ∧ v ⊆ v' ∧ c ∈ v' ∧ (I v → I v')) →
  printChildren print last i children buff visited = Some (buff', visited') →
  (∃ out, buff' = buff +:+ out) ∧ visited ⊆ visited'
  ∧ (∀ c, c ∈ children → c ∈ visited') ∧ (I visited → I visited').
Proof.
  revert i buff visited. induction children as [|child children IH];
    intros i buff visited Hprint; cbn [printChildren].
  - intros [= <- <-]. split; [exists EmptyString; by rewrite sapp_nil_r|].
    split; [done|]. split; [|done]. by intros c ?%elem_of_nil.
  - destruct (print buff child (i =? last)%nat visited) as [[b v]|] eqn:Ep; [|done].
    intros Hrest.
    destruct (Hprint _ _ _ _ _ _ (list_elem_of_here _ _) Ep) as ([out1 ->] & Hv & Hc & HI).
    destruct (IH (S i) _ _ (fun b c l v b' v' Hin => Hprint b c l v b' v'
                              (list_elem_of_further _ _ _ Hin)) Hrest)
      as ([out2 ->] & Hv' & Hcs & HI').
    split; [exists (out1 +:+ out2); by rewrite sapp_assoc|].
    split; [by etrans|]. split; [|auto].
    intros c [->|Hin]%elem_of_cons; [by apply Hv'|auto].
Qed.

Lemma closedExcept_enter (graph : gmap Z (list Z)) (P : Z → Prop) (node : Z)
    (visited : gset Z) :
  closedExcept graph P visited →
  closedExcept graph (fun x => P x ∨ x = node) ({[node]} ∪ visited).
Proof.
  intros HP q [->%elem_of_singleton|Hq]%elem_of_union Hnq ds d Eds Hd; [tauto|].
  apply elem_of_union. right. apply (HP q Hq (fun HPq => Hnq (or_introl HPq)) ds d Eds Hd).
Qed.

Lemma closedExcept_leave (graph : gmap Z (list Z)) (P : Z → Prop) (node : Z)
    (visited : gset Z) :
  (∀ children child, graph !! node = Some children → child ∈ children → child ∈ visited) →
  closedExcept graph (fun x => P x ∨ x = node) visited →
  closedExcept graph P visited.
Proof.
  intros Hnode HP p Hp HnP cs c Ecs Hc. destruct (decide (p = node)) as [->|Hne].
  - by apply (Hnode cs).
  - apply (HP p Hp) with cs; [tauto|done..].
Qed.

Lemma printSubGraph_inv (graph : gmap Z (list Z)) (defs : gmap Z Entry) (fuel : nat) :
  ∀ (buff : string) (node : Z) (prefix : string) (isLast : bool) (visited : gset Z)
    (buff' : string) (visited' : gset Z) (P : Z → Prop),
  printSubGraph fuel buff node graph prefix isLast defs visited = Some (buff', visited') →
  (∃ rest, buff' = buff +:+ prefix +:+ (if isLast then lastBranch else midBranch)
                   +:+ Strconv.Itoa node +:+ " ("
                   +:+ FunctionCall (default Entry_zero (defs !! node)) +:+ ")" +:+ nl
                   +:+ rest)
  ∧ visited ⊆ visited' ∧ node ∈ visited'
  ∧ (∀ children child, graph !! node = Some children → child ∈ children → child ∈ visited')
  ∧ (closedExcept graph P visited → closedExcept graph P visited').
Proof.
  induction fuel as [|fuel IH];
    intros buff node prefix isLast visited buff' visited' P; [discriminate|].
  cbn [printSubGraph].
  assert (Hcall : ∀ p b c l v b' v',
            printSubGraph fuel b c graph p l defs v = Some (b', v') →
            (∃ out, b' = b +:+ out) ∧ v ⊆ v' ∧ c ∈ v'
            ∧ (closedExcept graph (fun x => P x ∨ x = node) v
               → closedExcept graph (fun x => P x ∨ x = node) v')).
  { intros p b c l v b' v' H.
    destruct (IH _ _ _ _ _ _ _ (fun x => P x ∨ x = node) H) as ([rest ->] & ? & ? & _ & ?).
    split; [|done]. eexists. reflexivity. }
  assert (Hin : node ∈ ({[node]} ∪ visited : gset Z)).
  { apply elem_of_union. left. by apply elem_of_singleton. }
  assert (Hsub : visited ⊆ ({[node]} ∪ visited : gset Z)).
  { intros x Hx. apply elem_of_union. by right. }
  assert (Hkids : ∀ children (visited' : gset Z),
            graph !! node = Some children → (∀ c, c ∈ children → c ∈ visited') →
            ∀ cs child, graph !! node = Some cs → child ∈ cs → child ∈ visited').
  { intros children v' E Hcs cs child Ecs Hc.
    assert (cs = children) as -> by congruence. auto. }
  destruct isLast;
    (destruct (graph !! node) as [children|] eqn:Egraph; intros H;
     [ destruct (printChildren_grows _ (closedExcept graph (fun x => P x ∨ x = node))
                   _ _ _ _ _ _ _ (fun b c l v b' v' _ => Hcall _ b c l v b' v') H)
         as ([out ->] & Hv & Hcs & Hclosed);
       split; [exists out; by rewrite !sapp_assoc|];
       split; [by etrans|]; split; [by apply Hv|];
       split; [by apply (Hkids children)|];
       intros HP; apply (closedExcept_leave graph P node);
       [rewrite Egraph; by apply (Hkids children)|by apply Hclosed, closedExcept_enter]
     | injection H as <- <-;
       split; [exists EmptyString; by rewrite !sapp_nil_r, ?sapp_assoc|];
       split; [done|]; split; [done|]; split; [discriminate|];
       intros HP; apply (closedExcept_leave graph P node);
       [rewrite Egraph; discriminate|by apply closedExcept_enter] ]).
Qed.

(** [printSubGraph], when it returns: the text so far is kept and the
    line of the node comes next, with the prefix, the branch for a
    last or a middle sibling, the id, and the call text of the node in
    [defs] (empty when [defs] has no entry for it); the node and its
    children are visited, and no node stops being visited. *)
Theorem printSubGraph_prints_node (fuel : nat) (buff : string) (node : Z)
    (graph : gmap Z (list Z)) (prefix : string) (isLast : bool)
    (defs : gmap Z Entry) (visited : gset Z) (buff' : string) (visited' : gset Z) :
  printSubGraph fuel buff node graph prefix isLast defs visited = Some (buff', visited') →
  (∃ rest, buff' = buff +:+ prefix +:+ (if isLast then lastBranch else midBranch)
                   +:+ Strconv.Itoa node +:+ " ("
                   +:+ FunctionCall (default Entry_zero (defs !! node)) +:+ ")" +:+ nl
                   +:+ rest)
  ∧ visited ⊆ visited' ∧ node ∈ visited'
  ∧ ∀ children child, graph !! node = Some children → child ∈ children → child ∈ visited'.
Proof.
  intros H. destruct (printSubGraph_inv graph defs fuel _ _ _ _ _ _ _ (fun _ => False) H)
    as (? & ? & ? & ? & _). done.
Qed.

Lemma printSubGraph_prints_node_witness :
  (∃ rest, "└── 1 ()" +:+ nl
           = EmptyString +:+ EmptyString +:+ lastBranch +:+ Strconv.Itoa 1 +:+ " ("
             +:+ FunctionCall (default Entry_zero ((∅ : gmap Z Entry) !! 1)) +:+ ")" +:+ nl
             +:+ rest)
  ∧ (∅ : gset Z) ⊆ {[1]} ∧ 1 ∈ ({[1]} : gset Z)
  ∧ ∀ children child, (<[1 := []]> ∅ : gmap Z (list Z)) !! 1 = Some children →
                      child ∈ children → child ∈ ({[1]} : gset Z).
Proof.
  apply (printSubGraph_prints_node 1 EmptyString 1 (<[1 := []]> ∅) EmptyString true ∅ ∅).
  vm_compute. reflexivity.
Defined.

Lemma PrintGraph_each_None (fuel : nat) (graph : gmap Z (list Z)) (defs : gmap Z Entry)
    (check : bool) (nodes : list Z) :
  PrintGraph_each fuel graph defs check nodes None = None.
Proof. unfold PrintGraph_each. by induction nodes. Qed.

Lemma PrintGraph_each_cons (fuel : nat) (graph : gmap Z (list Z)) (defs : gmap Z Entry)
    (check : bool) (node : Z) (nodes : list Z) (buff : string) (visited : gset Z) :
  PrintGraph_each fuel graph defs check (node :: nodes) (Some (buff, visited))
  = PrintGraph_each fuel graph defs check nodes
      (if check && bool_decide (node ∈ visited) then Some (buff, visited)
       else printSubGraph fuel buff node graph EmptyString true defs visited).
Proof. reflexivity. Qed.

Lemma PrintGraph_each_inv (fuel : nat) (graph : gmap Z (list Z)) (defs : gmap Z Entry)
    (check : bool) (nodes : list Z) :
  ∀ (buff : string) (visited : gset Z) (buff' : string) (visited' : gset Z),
  PrintGraph_each fuel graph defs check nodes (Some (buff, visited))
  = Some (buff', visited') →
  (∃ out, buff' = buff +:+ out) ∧ visited ⊆ visited'
  ∧ (∀ node, node ∈ nodes → node ∈ visited')
  ∧ (closedExcept graph (fun _ => False) visited
     → closedExcept graph (fun _ => False) visited').
Proof.
  induction nodes as [|node nodes IH]; intros buff visited buff' visited'.
  - intros [= <- <-]. split; [exists EmptyString; by rewrite sapp_nil_r|].
    split; [done|]. split; [|done]. by intros node ?%elem_of_nil.
  - rewrite PrintGraph_each_cons.
    destruct (check && bool_decide (node ∈ visited)) eqn:Echeck.
    + intros H. destruct (IH _ _ _ _ H) as (Hout & Hv & Hnodes & Hclosed).
      do 2 (split; [done|]). split; [|done].
      intros n [->|Hn]%elem_of_cons; [|auto].
      apply andb_true_iff in Echeck as [_ Hin%bool_decide_eq_true]. by apply Hv.
    + destruct (printSubGraph fuel buff node graph EmptyString true defs visited)
        as [[b v]|] eqn:Eprint; [|by rewrite PrintGraph_each_None].
      intros H. destruct (IH _ _ _ _ H) as ([out2 ->] & Hv & Hnodes & Hclosed).
      destruct (printSubGraph_inv graph defs fuel _ _ _ _ _ _ _ (fun _ => False) Eprint)
        as ([out1 ->] & Hv1 & Hnode & _ & Hclosed1).
      split; [eexists; rewrite !sapp_assoc; reflexivity|].
      split; [by etrans|]. split; [|auto].
      intros n [->|Hn]%elem_of_cons; [by apply Hv|auto].
Qed.

Lemma PrintGraph_each_visited (fuel : nat) (graph : gmap Z (list Z)) (defs : gmap Z Entry)
    (nodes : list Z) (buff : string) (visited : gset Z) :
  (∀ node, node ∈ nodes → node ∈ visited) →
  PrintGraph_each fuel graph defs true nodes (Some (buff, visited)) = Some (buff, visited).
Proof.
  induction nodes as [|node nodes IH]; intros Hin; [done|].
  rewrite PrintGraph_each_cons, bool_decide_eq_true_2 by apply Hin, list_elem_of_here.
  cbn [andb]. apply IH. intros n Hn. by apply Hin, list_elem_of_further.
Qed.

(** [PrintGraph], on the graph of a mapping without cycles: every node
    is reached from a root, so the second loop, over the nodes not
    visited yet, prints nothing and the rendering is that of the roots
    and their subgraphs. *)
Theorem PrintGraph_acyclic_no_orphans (ρ : MapOrder) (rank : Z → nat)
    (mapping : gmap Z Z) (fuel : nat) (buff : string) (defs : gmap Z Entry) :
  MapOrder_ok ρ →
  (∀ item source, mapping !! item = Some source → (rank item < rank source)%nat) →
  (∀ node, rank node < fuel)%nat →
  PrintGraph ρ fuel buff (BuildGraph ρ mapping) defs
  = fst <$> PrintGraph_each fuel (BuildGraph ρ mapping) defs false
              (findRoots ρ (BuildGraph ρ mapping)) (Some (buff, ∅)).
Proof.
  intros Hok Hrank Hfuel. unfold PrintGraph. cbv zeta.
  destruct (PrintGraph_each fuel (BuildGraph ρ mapping) defs false
              (findRoots ρ (BuildGraph ρ mapping)) (Some (buff, ∅)))
    as [[out visited]|] eqn:Eroots; [|by rewrite PrintGraph_each_None].
  apply PrintGraph_each_inv in Eroots as (_ & _ & Hroots & Hclosed).
  rewrite PrintGraph_each_visited; [done|].
  assert (Hall : ∀ k node, (fuel - rank node ≤ k)%nat →
                           is_Some (BuildGraph ρ mapping !! node) → node ∈ visited).
  { induction k as [|k IH]; intros node Hk Hnode.
    { specialize (Hfuel node). lia. }
    destruct (mapping !! node) as [source|] eqn:Esrc.
    - assert (Hsource : is_Some (BuildGraph ρ mapping !! source)).
      { apply BuildGraph_node_children; eauto. }
      pose proof (Hrank _ _ Esrc). pose proof (Hfuel source).
      assert (Hvis : source ∈ visited) by (apply IH; [lia|done]).
      destruct Hsource as [children Hchildren].
      refine (Hclosed _ source Hvis _ children node Hchildren _); [|tauto|].
      + by intros ? ?%not_elem_of_empty.
      + by apply (BuildGraph_node_children ρ mapping source Hok).
    - apply Hroots. apply findRoots_BuildGraph_elem; [done|]. split; [|done].
      destruct (BuildGraph_node_children ρ mapping node Hok) as [Hiff _].
      apply Hiff in Hnode as [[x Hx]|?]; [congruence|done]. }
  intros node Hnode. apply (Hall fuel); [lia|]. by apply rangeKeys_elem in Hnode.
Qed.

Lemma PrintGraph_acyclic_no_orphans_witness :
  PrintGraph orderReversed 3 EmptyString (BuildGraph orderReversed mapping_two_roots) ∅
  = fst <$> PrintGraph_each 3 (BuildGraph orderReversed mapping_two_roots) ∅ false
              (findRoots orderReversed (BuildGraph orderReversed mapping_two_roots))
              (Some (EmptyString, ∅)).
Proof.
  apply (PrintGraph_acyclic_no_orphans orderReversed
           (fun node => if decide (node = 1 ∨ node = 2) then 1%nat else 0%nat)
           mapping_two_roots 3 EmptyString ∅).
  - intros site ks. simpl. symmetry. apply Permutation_rev.
  - intros item source H. unfold mapping_two_roots in H.
    destruct (decide (item = 7)) as [->|];
      [rewrite lookup_insert_eq in H; injection H as <-; repeat case_decide; lia|].
    rewrite lookup_insert_ne in H by done.
    destruct (decide (item = 8)) as [->|];
      [rewrite lookup_insert_eq in H; injection H as <-; repeat case_decide; lia|].
    by rewrite lookup_insert_ne in H.
  - intros node. destruct (decide _); lia.
Defined.

Lemma PrintGraph_acyclic_returns_witness :
  is_Some (PrintGraph orderAsListed 3 EmptyString
             (BuildGraph orderAsListed mapping_two_roots) ∅).
Proof.
  apply (PrintGraph_acyclic_returns orderAsListed
           (fun node => if decide (node = 1 ∨ node = 2) then 1%nat else 0%nat)
           mapping_two_roots 3 EmptyString ∅).
  - intros site ks. reflexivity.
  - intros item source H. unfold mapping_two_roots in H.
    destruct (decide (item = 7)) as [->|];
      [rewrite lookup_insert_eq in H; injection H as <-; repeat case_decide; lia|].
    rewrite lookup_insert_ne in H by done.
    destruct (decide (item = 8)) as [->|];
      [rewrite lookup_insert_eq in H; injection H as <-; repeat case_decide; lia|].
    by rewrite lookup_insert_ne in H.
  - intros node. destruct (decide _); lia.
Defined.

(** ** Invariants of the parsed stacks *)

Lemma parseFuncName_Ok_nonempty (line name : string) (creator : bool) :
  parseFuncName line = Ok (name, creator) → name ≠ EmptyString.
Proof.
  unfold parseFuncName.
  destruct (Strings.CutPrefix line "created by ") as [after []];
    [destruct (Strings.Index after " in goroutine")
    |destruct (Strings.LastIndexByte line "(")];
    cbv beta iota zeta; try discriminate;
    match goal with |- context [match ?n with EmptyString => _ | _ => _ end] =>
      destruct n eqn:E end; try discriminate; by intros [= <- _].
Qed.

Lemma goodLocals_init : goodLocals locals_init.
Proof.
  unfold goodLocals. cbn. split; [done|]. split; [by intros ?%not_elem_of_empty|].
  split; [done|]. split; [done|]. by intros e ?%elem_of_nil.
Qed.

Lemma goodLocals_writeLine (v : locals) (line : string) :
  goodLocals v → goodLocals (writeLine v line).
Proof. done. Qed.

Lemma goodStack_of_goodLocals (v : locals) : goodLocals v → goodParsed v.
Proof.
  intros (_ & Hne & Hf1 & Hf2 & He). split; [done|]. split; [done|]. split; [done|].
  intros e Hin. destruct (He e Hin) as (Hsrc & Htab & name & Hp & Hn).
  split; [done|]. exists name. rewrite Hsrc. by split.
Qed.

Lemma goodLocals_ordinary (v : locals) (line name : string) :
  parseFuncName line = Ok (name, false) → goodLocals v →
  goodLocals (recordCall (writeLine v line) line name false).
Proof.
  intros Hp (Hcur & Hne & Hf1 & Hf2 & He).
  pose proof (parseFuncName_Ok_nonempty _ _ _ Hp) as Hname.
  unfold goodLocals. cbn. split; [done|].
  split; [rewrite elem_of_union, elem_of_singleton; intros [?|?]; [by apply Hname|done]|].
  destruct (String.eqb_spec (l_firstFunction v) EmptyString) as [E|E].
  - split; [done|]. split; [intros _; apply elem_of_union; left; by apply elem_of_singleton|].
    intros e Hin. destruct (He e Hin) as (? & ? & n & ? & ?).
    do 2 (split; [done|]). exists n. split; [done|]. apply elem_of_union. by right.
  - split; [done|]. split; [intros _; apply elem_of_union; right; by apply Hf2|].
    intros e Hin. destruct (He e Hin) as (? & ? & n & ? & ?).
    do 2 (split; [done|]). exists n. split; [done|]. apply elem_of_union. by right.
Qed.

Lemma goodLocals_ordinary_location (v : locals) (line name bs : string) :
  parseFuncName line = Ok (name, false) → startsWithTab bs = true → goodLocals v →
  goodLocals (recordLocation (recordCall (writeLine v line) line name false) bs).
Proof.
  intros Hp Htab Hv. pose proof (goodLocals_ordinary v line name Hp Hv) as Hg.
  destruct Hv as (Hcur & _). destruct Hg as (_ & Hne & Hf1 & Hf2 & He).
  unfold goodLocals. cbn in *. split; [done|]. split; [done|]. split; [done|].
  split; [done|]. intros e [Hin|Hin%list_elem_of_singleton]%elem_of_app; [by apply He|subst e].
  cbn. do 2 (split; [done|]). exists name. split; [done|].
  apply elem_of_union. left. by apply elem_of_singleton.
Qed.

Lemma goodParsed_creator (v : locals) (line name : string) :
  parseFuncName line = Ok (name, true) → goodLocals v →
  goodParsed (recordCall (writeLine v line) line name true).
Proof. intros Hp Hv. by apply goodStack_of_goodLocals in Hv. Qed.

Lemma goodParsed_creator_location (v : locals) (line name bs : string) :
  parseFuncName line = Ok (name, true) → startsWithTab bs = true → goodLocals v →
  goodParsed (recordLocation (recordCall (writeLine v line) line name true) bs).
Proof.
  intros Hp Htab Hv. apply goodStack_of_goodLocals in Hv as (Hne & Hf1 & Hf2 & He).
  unfold goodParsed. cbn. split; [done|]. split; [done|]. split; [done|].
  intros e [Hin|Hin%list_elem_of_singleton]%elem_of_app; [by apply He|subst e].
  cbn. split; [done|]. exists name. by split.
Qed.

Lemma parseStack_lines_good (lines : list string) (v v' : locals) :
  goodLocals v → (parseStack_lines lines v).2 = Ok v' → goodParsed v'.
Proof.
  functional induction (parseStack_lines lines v); cbn [fst snd]; intros Hv;
    try (intros [= <-]); try discriminate.
  - by apply goodStack_of_goodLocals.
  - by apply goodStack_of_goodLocals.
  - by apply IHp, goodLocals_writeLine.
  - by apply IHp, goodLocals_writeLine.
  - destruct creator; [by apply goodParsed_creator|].
    by apply goodStack_of_goodLocals, goodLocals_ordinary.
  - by apply goodParsed_creator_location.
  - by apply IHp, goodLocals_ordinary_location.
  - by apply goodParsed_creator.
  - by apply IHp, goodLocals_ordinary.
Qed.

Lemma ParseStack_goodParsed (buf : string) (stacks : list Stack) (err : option error)
    (s : Stack) :
  ParseStack buf = Some (stacks, err) → s ∈ stacks →
  ∃ v, goodParsed v ∧ firstFunction s = l_firstFunction v
       ∧ allFunctions s = l_funcs v ∧ entries s = l_entries v.
Proof.
  intros Hparse Hs.
  destruct (ParseStack_stack_chunk _ _ _ _ Hparse Hs) as ([header body] & sc & _ & _ & Hr & _).
  apply stackResult_Ok in Hr as (v & Hv & _ & _ & Hfirst & Hfuncs & _ & Hentries).
  exists v. split; [|done]. apply (parseStack_lines_good body locals_init); [|done].
  apply goodLocals_init.
Qed.

(** For every stack that [Parse] returns: [firstFunction] is empty
    exactly when the stack has no function at all, otherwise it is one
    of [allFunctions]; and the empty name is never in [allFunctions]. *)
Theorem firstFunction_is_a_function (buf : string) (stacks : list Stack)
    (err : option error) (s : Stack) :
  ParseStack buf = Some (stacks, err) → s ∈ stacks →
  HasFunction s EmptyString = false
  ∧ (FirstFunction s = EmptyString ↔ allFunctions s = ∅)
  ∧ (FirstFunction s ≠ EmptyString → HasFunction s (FirstFunction s) = true).
Proof.
  intros Hparse Hs.
  destruct (ParseStack_goodParsed _ _ _ _ Hparse Hs)
    as (v & (Hne & Hf1 & Hf2 & _) & Hfirst & Hfuncs & _).
  unfold HasFunction, FirstFunction. rewrite Hfirst, Hfuncs.
  split; [by apply bool_decide_eq_false_2|]. split.
  - split; [done|]. intros Hempty.
    destruct (decide (l_firstFunction v = EmptyString)) as [|Hn]; [done|].
    apply Hf2 in Hn. rewrite Hempty in Hn. by apply not_elem_of_empty in Hn.
  - intros Hn. by apply bool_decide_eq_true_2, Hf2.
Qed.

Lemma firstFunction_is_a_function_witness :
  HasFunction (hd Stack_zero (stacksOf dump_worker)) EmptyString = false
  ∧ (FirstFunction (hd Stack_zero (stacksOf dump_worker)) = EmptyString
     ↔ allFunctions (hd Stack_zero (stacksOf dump_worker)) = ∅)
  ∧ (FirstFunction (hd Stack_zero (stacksOf dump_worker)) ≠ EmptyString →
     HasFunction (hd Stack_zero (stacksOf dump_worker))
       (FirstFunction (hd Stack_zero (stacksOf dump_worker))) = true).
Proof.
  apply (firstFunction_is_a_function dump_worker (stacksOf dump_worker) None).
  - vm_compute. reflexivity.
  - vm_compute. apply list_elem_of_here.
Defined.

(** For every stack that [Parse] returns, every entry is a call line
    with its location line: [parseFuncName] accepts the call text, the
    entry is the source entry exactly when the call text is a creator
    line, the location begins with a tab, and the function of an
    ordinary entry is in [allFunctions]. *)
Theorem entries_are_calls_with_location (buf : string) (stacks : list Stack)
    (err : option error) (s : Stack) (e : Entry) :
  ParseStack buf = Some (stacks, err) → s ∈ stacks → e ∈ entries s →
  startsWithTab (Location e) = true
  ∧ ∃ name, parseFuncName (FunctionCall e) = Ok (name, IsSource e)
            ∧ (IsSource e = false → HasFunction s name = true).
Proof.
  intros Hparse Hs He.
  destruct (ParseStack_goodParsed _ _ _ _ Hparse Hs)
    as (v & (_ & _ & _ & Hentries) & _ & Hfuncs & Hes).
  rewrite Hes in He. destruct (Hentries e He) as (Htab & name & Hp & Hn).
  split; [done|]. exists name. split; [done|]. intros Hsrc.
  unfold HasFunction. rewrite Hfuncs. by apply bool_decide_eq_true_2, Hn.
Qed.

Lemma entries_are_calls_with_location_witness :
  startsWithTab (Location (SourceEntry (hd Stack_zero (stacksOf dump_worker)))) = true
  ∧ ∃ name,
      parseFuncName (FunctionCall (SourceEntry (hd Stack_zero (stacksOf dump_worker))))
      = Ok (name, IsSource (SourceEntry (hd Stack_zero (stacksOf dump_worker))))
      ∧ (IsSource (SourceEntry (hd Stack_zero (stacksOf dump_worker))) = false →
         HasFunction (hd Stack_zero (stacksOf dump_worker)) name = true).
Proof.
  apply (entries_are_calls_with_location dump_worker (stacksOf dump_worker) None
           (hd Stack_zero (stacksOf dump_worker))).
  - vm_compute. reflexivity.
  - vm_compute. apply list_elem_of_here.
  - vm_compute. apply list_elem_of_further, list_elem_of_here.
Defined.

(** ** Stacks and header lines *)

Lemma chunks_length (lines : list string) :
  length (chunks lines).2 = length (List.filter isHeader lines).
Proof.
  induction lines as [|line lines IH]; [done|]. cbn [chunks List.filter].
  destruct (chunks lines) as [pre cs]. destruct (isHeader line); cbn in *; by rewrite IH.
Qed.

Lemma results_length (rs : list (result Stack)) :
  (length (omap stackOf rs) + length (omap errorOf rs) = length rs)%nat.
Proof.
  induction rs as [|[s|e] rs IH]; cbn; [done| |]; lia.
Qed.

Lemma errors_Join_None (es : list error) :
  errors_Join (Some <$> es) = None ↔ es = [].
Proof.
  unfold errors_Join. destruct es as [|e es]; [done|]. cbn. split; discriminate.
Qed.

(** [ParseStack] returns at most one stack for every header line of
    the dump (a line that begins with "goroutine "), and the error is
    nil exactly when every header line gave a stack; so a dump without
    header line, the empty dump among them, gives no stack and no
    error. *)
Theorem ParseStack_one_stack_per_header (buf : string) (stacks : list Stack)
    (err : option error) :
  ParseStack buf = Some (stacks, err) →
  let headers := length (List.filter isHeader (splitLines EmptyString buf)) in
  (length stacks ≤ headers)%nat ∧ (err = None ↔ length stacks = headers).
Proof.
  rewrite ParseStack_lines, ParseLines_chunks. cbv zeta. intros [= <- <-].
  rewrite <- chunks_length.
  set (rs := (fun c => stackResult c.1 c.2) <$> (chunks (splitLines EmptyString buf)).2).
  assert (Hlen : length rs = length (chunks (splitLines EmptyString buf)).2)
    by apply length_fmap.
  pose proof (results_length rs) as Hsum. rewrite <- Hlen. split; [lia|].
  rewrite errors_Join_None. split.
  - intros E. rewrite E in Hsum. cbn in Hsum. lia.
  - intros E. apply length_zero_iff_nil. lia.
Qed.

Lemma ParseStack_one_stack_per_header_witness :
  (length (stacksOf dump_worker)
   ≤ length (List.filter isHeader (splitLines EmptyString dump_worker)))%nat
  ∧ ((None : option error) = None
     ↔ length (stacksOf dump_worker)
       = length (List.filter isHeader (splitLines EmptyString dump_worker))).
Proof.
  apply (ParseStack_one_stack_per_header dump_worker (stacksOf dump_worker) None).
  vm_compute. reflexivity.
Defined.

(** ** What ends a stack *)

Lemma plainFrames_run_all (body : list string) (v : locals) :
  plainFrames body = true → goodLocals v →
  ∃ v', goodLocals v' ∧ ∀ tail, parseStack_lines (body ++ tail) v = parseStack_lines tail v'.
Proof.
  revert v. functional induction (plainFrames body); intros v Hb Hv; try discriminate.
  - eauto.
  - destruct (IHb (writeLine v line) Hb (goodLocals_writeLine _ _ Hv)) as (v' & Hv' & Hrun).
    exists v'. split; [done|]. intros tail. cbn [app parseStack_lines]. rew_hyps. apply Hrun.
  - destruct (IHb (writeLine v line) Hb (goodLocals_writeLine _ _ Hv)) as (v' & Hv' & Hrun).
    exists v'. split; [done|]. intros tail. cbn [app parseStack_lines]. rew_hyps. apply Hrun.
  - match goal with
    | Hp : parseFuncName line = Ok (?name, false), Ht : startsWithTab bs = true |- _ =>
        destruct (IHb _ Hb (goodLocals_ordinary_location v line name bs Hp Ht Hv))
          as (v' & Hv' & Hrun)
    end.
    exists v'. split; [done|]. intros tail. cbn [app parseStack_lines]. rew_hyps. apply Hrun.
Qed.

Lemma creator_has_prefix (line name : string) :
  parseFuncName line = Ok (name, true) → Strings.HasPrefix line "created by " = true.
Proof.
  unfold parseFuncName, Strings.CutPrefix.
  destruct (Strings.HasPrefix line "created by "); [done|].
  destruct (Strings.LastIndexByte line "("); cbv beta iota zeta; [|discriminate].
  destruct (Strings.take n line); [discriminate|]. by intros [= _].
Qed.

Lemma created_by_shape (line : string) :
  Strings.HasPrefix line "created by " = true →
  isHeader line = false ∧ (Strings.len line =? 0)%nat = false ∧ isElided line = false.
Proof.
  destruct line as [|a line]; [discriminate|]. cbn [Strings.HasPrefix].
  destruct (Ascii.eqb_spec a "c") as [->|]; [|discriminate]. intros _.
  by repeat split.
Qed.

Lemma chunks_after_header (header : string) (body tail : list string) :
  isHeader header = true → Forall (fun l => isHeader l = false) body →
  (chunks (header :: body ++ tail)).2
  = (header, body ++ (chunks tail).1) :: (chunks tail).2.
Proof.
  intros Hh Hb. cbn [chunks]. rewrite (chunks_no_header body tail Hb), Hh. reflexivity.
Qed.

Lemma Forall_no_header_cons_app (pre : list string) (ls : list string) :
  Forall (fun l => isHeader l = false) pre → Forall (fun l => isHeader l = false) ls →
  Forall (fun l => isHeader l = false) (pre ++ ls).
Proof. intros. by apply Forall_app. Qed.

(** A creator line with its location line ends the stack: after a
    header line and ordinary frames, the stack that [Parse] returns
    for them is the same whatever lines follow, its source entry is
    the creator line with that location, and the stacks and the error
    of the lines that follow are those of these lines parsed alone
    (what stands before their first header line is skipped). *)
Theorem creator_line_ends_stack (header : string) (pre : list string) (c loc X : string)
    (id : Z) (state : string) :
  isHeader header = true →
  parseGoStackHeader header = Ok (id, state) →
  plainFrames pre = true →
  parseFuncName c = Ok (X, true) →
  startsWithTab loc = true →
  ∃ s, ID s = id ∧ State s = state
       ∧ SourceEntry s = {| FunctionCall := c; Location := loc; IsSource := true |}
       ∧ ∀ tail stacks err,
           ParseLines tail = Some (stacks, err) →
           ParseLines (header :: pre ++ c :: loc :: tail) = Some (s :: stacks, err).
Proof.
  intros Hh Hhead Hpre Hc Hloc.
  destruct (plainFrames_run_all pre locals_init Hpre goodLocals_init) as (v & Hv & Hrun).
  destruct (created_by_shape c (creator_has_prefix c X Hc)) as (Hc1 & Hc2 & Hc3).
  set (v' := recordLocation (recordCall (writeLine v c) c X true) loc).
  assert (Hlines : ∀ tail, parseStack_lines (pre ++ c :: loc :: tail) locals_init
                           = (tail, Ok v')).
  { intros tail. rewrite Hrun. cbn [parseStack_lines]. by rewrite Hc1, Hc2, Hc3, Hc, Hloc. }
  set (s := {| Stack_id := id; Stack_state := state; firstFunction := l_firstFunction v';
               allFunctions := l_funcs v'; fullStack := l_fullStack v';
               entries := l_entries v' |}).
  assert (Hres : ∀ tail, stackResult header (pre ++ c :: loc :: tail) = Ok s).
  { intros tail. unfold stackResult. by rewrite Hhead, Hlines. }
  exists s. split; [done|]. split; [done|]. split.
  - unfold SourceEntry. cbn. apply SourceEntry_entries_last; [|done].
    destruct Hv as (_ & _ & _ & _ & He). apply Forall_forall. intros e Hin.
    by destruct (He e Hin).
  - intros tail stacks err. rewrite !ParseLines_chunks. cbv zeta.
    replace (pre ++ c :: loc :: tail) with ((pre ++ [c; loc]) ++ tail)
      by (by rewrite <- app_assoc).
    rewrite chunks_after_header; [|done|].
    2:{ apply Forall_app. split; [by apply plainFrames_no_header|].
        repeat constructor; [done|by apply startsWithTab_not_header]. }
    intros [= <- <-]. cbn [fmap list_fmap fst snd].
    rewrite <- app_assoc. cbn [app]. rewrite Hres. reflexivity.
Qed.

Lemma creator_line_ends_stack_witness :
  ∃ s, ID s = 2 ∧ State s = "running"
       ∧ SourceEntry s = {| FunctionCall := "created by main.worker in goroutine 1";
                            Location := String TAB "/a/b.go:20 +0x2"; IsSource := true |}
       ∧ ∀ tail stacks err,
           ParseLines tail = Some (stacks, err) →
           ParseLines ("goroutine 2 [running]:"
                       :: ["main.worker()"; String TAB "/a/b.go:10 +0x1"]
                          ++ "created by main.worker in goroutine 1"
                          :: String TAB "/a/b.go:20 +0x2" :: tail)
           = Some (s :: stacks, err).
Proof.
  apply (creator_line_ends_stack "goroutine 2 [running]:"
           ["main.worker()"; String TAB "/a/b.go:10 +0x1"]
           "created by main.worker in goroutine 1" (String TAB "/a/b.go:20 +0x2")
           "main.worker" 2 "running"); vm_compute; reflexivity.
Defined.

Lemma errors_Join_cons (e : error) (es : list error) :
  errors_Join (Some <$> e :: es) = Some (joinError (e :: es)).
Proof.
  unfold errors_Join. cbn. f_equal. f_equal. f_equal.
  induction es as [|x es IH]; [done|]. cbn. by rewrite IH.
Qed.

(** A line that is no function fails its stack: after a header line
    and ordinary frames, a line that [parseFuncName] rejects makes
    [Parse] drop the stack and report "parse function: no function
    found" for that line; the stacks and the errors of the lines that
    follow are those of these lines parsed alone. *)
Theorem bad_call_line_fails_stack (header : string) (pre : list string) (line : string)
    (id : Z) (state : string) (e : error) :
  isHeader header = true →
  parseGoStackHeader header = Ok (id, state) →
  plainFrames pre = true →
  isHeader line = false → Strings.len line ≠ O → isElided line = false →
  parseFuncName line = Err e →
  ∀ tail, ∃ stacks errs,
    ParseLines tail = Some (stacks, errors_Join (Some <$> errs))
    ∧ ParseLines (header :: pre ++ line :: tail)
      = Some (stacks,
              Some (joinError (errWrap "parse function" (errNoFunctionFound line) :: errs))).
Proof.
  intros Hh Hhead Hpre Hl1 Hl2 Hl3 Hl tail.
  assert (He : e = errNoFunctionFound line).
  { revert Hl. unfold parseFuncName.
    destruct (Strings.CutPrefix line "created by ") as [after []];
      [destruct (Strings.Index after " in goroutine")
      |destruct (Strings.LastIndexByte line "(")];
      cbv beta iota zeta; try (by intros [= <-]);
      match goal with |- context [match ?n with EmptyString => _ | _ => _ end] =>
        destruct n end; try discriminate; by intros [= <-]. }
  subst e.
  destruct (plainFrames_run_all pre locals_init Hpre goodLocals_init) as (v & Hv & Hrun).
  apply Nat.eqb_neq in Hl2.
  set (rs := (fun c => stackResult c.1 c.2) <$> (chunks tail).2).
  exists (omap stackOf rs), (omap errorOf rs). split; [apply ParseLines_chunks|].
  rewrite ParseLines_chunks. cbv zeta.
  replace (pre ++ line :: tail) with ((pre ++ [line]) ++ tail) by (by rewrite <- app_assoc).
  rewrite chunks_after_header; [|done|].
  2:{ apply Forall_app. split; [by apply plainFrames_no_header|]. by repeat constructor. }
  cbn [fmap list_fmap fst snd]. rewrite <- app_assoc. cbn [app].
  assert (Hres : stackResult header (pre ++ line :: (chunks tail).1)
                 = Err (errWrap "parse function" (errNoFunctionFound line))).
  { unfold stackResult. rewrite Hhead, Hrun. cbn [parseStack_lines].
    by rewrite Hl1, Hl2, Hl3, Hl. }
  rewrite Hres. change (omap stackOf (Err ?e :: ?l)) with (omap stackOf l).
  change (omap errorOf (Err ?e :: ?l)) with (e :: omap errorOf l).
  by rewrite errors_Join_cons.
Qed.

Lemma bad_call_line_fails_stack_witness :
  ∃ stacks errs,
    ParseLines ["goroutine 4 [chan receive]:"; "main.bar()"; String TAB "/a/b.go:12 +0x1"]
    = Some (stacks, errors_Join (Some <$> errs))
    ∧ ParseLines ("goroutine 3 [select]:"
                  :: ["main.foo()"; String TAB "/a/b.go:10 +0x1"]
                     ++ "not a call line"
                        :: ["goroutine 4 [chan receive]:"; "main.bar()";
                            String TAB "/a/b.go:12 +0x1"])
      = Some (stacks,
              Some (joinError (errWrap "parse function"
                                 (errNoFunctionFound "not a call line") :: errs))).
Proof.
  apply (bad_call_line_fails_stack "goroutine 3 [select]:"
           ["main.foo()"; String TAB "/a/b.go:10 +0x1"] "not a call line" 3 "select"
           (errNoFunctionFound "not a call line")); try (vm_compute; reflexivity).
  discriminate.
Defined.

(** ** The two line parsers *)

Lemma LastIndexByte_app_paren (name args : string) :
  Strings.LastIndexByte args "(" = None →
  Strings.LastIndexByte (name +:+ String "(" args) "(" = Some (Strings.len name).
Proof.
  intros Hargs. induction name as [|c name IH].
  - rewrite sapp_nil_l. cbn [Strings.LastIndexByte]. by rewrite Hargs.
  - rewrite sapp_cons. cbn [Strings.LastIndexByte]. by rewrite IH.
Qed.

(** [parseFuncName] on an ordinary call line: the name is what stands
    before the last opening parenthesis, so a name with parentheses
    of its own (a method of a pointer type) comes back whole. *)
Theorem parseFuncName_call (name args : string) :
  name ≠ EmptyString →
  Strings.HasPrefix (name +:+ "(" +:+ args) "created by " = false →
  Strings.LastIndexByte args "(" = None →
  parseFuncName (name +:+ "(" +:+ args) = Ok (name, false).
Proof.
  intros Hname Hprefix Hargs. unfold parseFuncName, Strings.CutPrefix.
  rewrite Hprefix. rewrite sapp_cons, sapp_nil_l.
  rewrite (LastIndexByte_app_paren name args Hargs), take_app_len.
  by destruct name.
Qed.

Lemma parseFuncName_call_witness :
  parseFuncName ("example.com/pkg.(*T).run" +:+ "(" +:+ "0xc000012345, 0x1)")
  = Ok ("example.com/pkg.(*T).run", false).
Proof.
  apply (parseFuncName_call "example.com/pkg.(*T).run" "0xc000012345, 0x1)");
    [discriminate|reflexivity|reflexivity].
Defined.

Lemma HasPrefix_created_by (rest : string) :
  Strings.CutPrefix ("created by " +:+ rest) "created by " = (rest, true).
Proof. reflexivity. Qed.

(** [parseFuncName] on a creator line, with or without the goroutine
    of the creator: the name is what stands between "created by " and
    " in goroutine". *)
Theorem parseFuncName_created_by (name sfx : string) :
  name ≠ EmptyString →
  Strings.Index name " in goroutine" = None →
  sfx = EmptyString ∨ (∃ G, sfx = " in goroutine " +:+ G) →
  parseFuncName ("created by " +:+ name +:+ sfx) = Ok (name, true).
Proof.
  intros Hname Hidx [->|[G ->]].
  - rewrite sapp_nil_r. unfold parseFuncName. rewrite HasPrefix_created_by, Hidx.
    by destruct name.
  - by apply parseFuncName_creatorLine.
Qed.

Lemma parseFuncName_created_by_witness :
  parseFuncName ("created by " +:+ "main.spawn" +:+ " in goroutine 7")
  = Ok ("main.spawn", true).
Proof.
  apply (parseFuncName_created_by "main.spawn" " in goroutine 7");
    [discriminate|reflexivity|].
  right. exists "7". reflexivity.
Defined.

Lemma parseGoStackHeader_shapes_witness :
  parseGoStackHeader
    ("goroutine" +:+ " " +:+ "643" +:+ " [" +:+ "chan receive, 2 minutes" +:+ "]" +:+ ":")
  = Ok (643, "chan receive, 2 minutes").
Proof.
  apply (parseGoStackHeader_shapes "goroutine" "643" "chan receive, 2 minutes" ":" 643);
    [reflexivity|reflexivity|reflexivity|].
  right. left. reflexivity.
Defined.

Lemma Index_space_None (s : string) :
  Strings.Index s " " = None ↔ countSpaces s = O.
Proof.
  induction s as [|c s IH]; [done|]. cbn [Strings.Index Strings.HasPrefix countSpaces].
  destruct (Ascii.eqb c " "); [done|]. rewrite <- IH.
  destruct (Strings.Index s " "); cbn; split; congruence.
Qed.

Lemma Index_space_Some (s : string) (i : nat) :
  Strings.Index s " " = Some i →
  countSpaces s = S (countSpaces (Strings.drop (i + 1) s)).
Proof.
  revert i. induction s as [|c s IH]; intros i; [done|].
  cbn [Strings.Index Strings.HasPrefix countSpaces].
  destruct (Ascii.eqb c " ").
  - by intros [= <-].
  - destruct (Strings.Index s " ") as [j|] eqn:E; [|done]. cbn. intros [= <-].
    by apply IH.
Qed.

Lemma SplitN_three_parts (s : string) :
  length (Strings.SplitN s " " 3) = 3%nat ↔ (2 ≤ countSpaces s)%nat.
Proof.
  cbn [Strings.SplitN]. destruct (Strings.Index s " ") as [i|] eqn:E.
  - rewrite (Index_space_Some s i E). cbn [Strings.len String.length].
    destruct (Strings.Index (Strings.drop (i + 1) s) " ") as [j|] eqn:E'.
    + rewrite (Index_space_Some _ j E'). cbn. split; [lia|done].
    + apply Index_space_None in E'. rewrite E'. cbn. split; [done|lia].
  - apply Index_space_None in E. rewrite E. cbn. split; [done|lia].
Qed.

(** [parseGoStackHeader] reports "unexpected format" exactly when the
    line, its colon or line feed trimmed, has fewer than two spaces:
    then it has no goroutine id or no state. *)
Theorem parseGoStackHeader_unexpected_format (line : string) :
  let trimmed := Strings.TrimSuffix (Strings.TrimSuffix line ":") nl in
  parseGoStackHeader line = Err (errUnexpectedFormat trimmed)
  ↔ (countSpaces trimmed < 2)%nat.
Proof.
  intros trimmed. unfold parseGoStackHeader. fold trimmed.
  pose proof (SplitN_three_parts trimmed) as Hparts.
  destruct (Strings.SplitN trimmed " " 3) as [|a [|b [|c [|d l]]]]; cbn in Hparts;
    try (split; [intros _; lia|done]).
  assert (2 ≤ countSpaces trimmed)%nat by (by apply Hparts).
  destruct (Strconv.Atoi b); (split; [discriminate|lia]).
Qed.

(** ** The source of a stack *)

Lemma digits_nonneg (s : string) (acc n : Z) :
  0 ≤ acc → Strconv.digits acc s = Some n → 0 ≤ n.
Proof.
  revert acc. induction s as [|c s IH]; intros acc Hacc; cbn [Strconv.digits].
  - by intros [= <-].
  - destruct (Strconv.isDigit c) eqn:Hc; [|done]. apply IH.
    unfold Strconv.isDigit in Hc. apply andb_true_iff in Hc as [Hc _].
    apply Nat.leb_le in Hc. unfold Strconv.digitVal. lia.
Qed.

Lemma Atoi_digit_first (c : ascii) (s : string) (id : Z) :
  Strconv.isDigit c = true → Strconv.Atoi (String c s) = Some id →
  0 ≤ id ≤ Strconv.maxInt.
Proof.
  intros Hc.
  assert (Hshape : Strconv.Atoi (String c s)
                   = match Strconv.digits 0 (String c s) with
                     | None => None
                     | Some n =>
                         if (Strconv.minInt <=? n) && (n <=? Strconv.maxInt) then Some n
                         else None
                     end).
  { destruct c as [[] [] [] [] [] [] [] []]; try discriminate Hc; reflexivity. }
  rewrite Hshape. destruct (Strconv.digits 0 (String c s)) as [n|] eqn:En; [|done].
  destruct (_ && _) eqn:Hr; [|done]. intros [= <-].
  apply andb_true_iff in Hr as [_ Hr%Z.leb_le].
  split; [by apply (digits_nonneg (String c s) 0)|done].
Qed.

Lemma FindStringSubmatch_digits (s : string) :
  sourceGoroutineRe.FindStringSubmatch s = []
  ∨ ∃ c d, Strconv.isDigit c = true
           ∧ sourceGoroutineRe.FindStringSubmatch s
             = ["goroutine " +:+ String c d; String c d].
Proof.
  induction s as [|a s IH]; cbn [sourceGoroutineRe.FindStringSubmatch].
  - unfold sourceGoroutineRe.matchAt. cbn. by left.
  - destruct (sourceGoroutineRe.matchAt (String a s)) as [d|] eqn:E; [|done].
    right. unfold sourceGoroutineRe.matchAt in E.
    destruct (Strings.HasPrefix _ _); [|done].
    destruct (Strings.drop 10 (String a s)) as [|c r]; [done|].
    cbn [sourceGoroutineRe.takeDigits] in E.
    destruct (Strconv.isDigit c) eqn:Hc; [|done]. injection E as <-. eauto.
Qed.

(** [SourceGoroutineID] is [-1] or an id that the pattern matched: a
    number from 0 to the largest [int]; when it is not [-1] the stack
    has a source entry; and [SourceEntry] is a source entry or the
    zero entry. *)
Theorem SourceGoroutineID_bounds (s : Stack) :
  (SourceGoroutineID s = -1 ∨ 0 ≤ SourceGoroutineID s ≤ Strconv.maxInt)
  ∧ (SourceGoroutineID s ≠ -1 → IsSource (SourceEntry s) = true)
  ∧ (IsSource (SourceEntry s) = false → SourceEntry s = Entry_zero).
Proof.
  unfold SourceGoroutineID, SourceEntry. induction (entries s) as [|e es IH];
    cbn [SourceGoroutineID_entries SourceEntry_entries].
  - split; [by left|]. by split.
  - destruct IH as (IH1 & IH2 & IH3). destruct (IsSource e) eqn:He; [|done].
    split; [|by split; [|congruence]].
    destruct (FindStringSubmatch_digits (FunctionCall e)) as [->|(c & d & Hc & ->)];
      [done|].
    cbn [length Nat.eqb lookup list_lookup default from_option id].
    destruct (Strconv.Atoi (String c d)) as [id|] eqn:Ha; [|done].
    right. by apply (Atoi_digit_first c d).
Qed.

Lemma SourceGoroutineID_bounds_witness :
  (SourceGoroutineID (hd Stack_zero (stacksOf dump_worker)) = -1
   ∨ 0 ≤ SourceGoroutineID (hd Stack_zero (stacksOf dump_worker)) ≤ Strconv.maxInt)
  ∧ (SourceGoroutineID (hd Stack_zero (stacksOf dump_worker)) ≠ -1 →
     IsSource (SourceEntry (hd Stack_zero (stacksOf dump_worker))) = true)
  ∧ (IsSource (SourceEntry (hd Stack_zero (stacksOf dump_worker))) = false →
     SourceEntry (hd Stack_zero (stacksOf dump_worker)) = Entry_zero).
Proof.
  apply (SourceGoroutineID_bounds (hd Stack_zero (stacksOf dump_worker))).
Defined.

(** ** Sampling and filtering *)

Lemma take_len (s : string) : Strings.take (Strings.len s) s = s.
Proof. rewrite <- (sapp_nil_r s) at 2. apply take_app_len. Qed.

Lemma getStackBuffer_loop_whole (host : Host) (all : bool) (m : nat) :
  ∀ (fuel : nat) (i : Z) (tr : list event),
    (∀ tr', Z.of_nat (Strings.len (runtime_Stack host all tr')) < i * 2 ^ Z.of_nat m) →
    (m < fuel)%nat →
    ∃ k, (k ≤ m)%nat
         ∧ getStackBuffer_loop host fuel i all tr
           = (tr ++ replicate (S k) (evStack all),
              Returned (runtime_Stack host all (tr ++ replicate k (evStack all)))).
Proof.
  induction m as [|m IH]; intros fuel i tr Hbound Hfuel;
    (destruct fuel as [|fuel]; [lia|]); cbn [getStackBuffer_loop].
  - pose proof (Hbound tr) as Htr. rewrite Z.mul_1_r in Htr.
    rewrite Z.min_l by lia. rewrite (proj2 (Z.ltb_lt _ _)) by lia.
    exists O. split; [done|]. by rewrite Nat2Z.id, take_len, app_nil_r.
  - destruct (Z.min _ i <? i) eqn:Hlt.
    + apply Z.ltb_lt in Hlt. rewrite Z.min_l by lia.
      exists O. split; [lia|]. by rewrite Nat2Z.id, take_len, app_nil_r.
    + destruct (IH fuel (i * 2) (tr ++ [evStack all])) as (k & Hk & ->); [|lia|].
      { intros tr'. specialize (Hbound tr').
        replace (i * 2 * 2 ^ Z.of_nat m) with (i * 2 ^ Z.of_nat (S m)); [done|].
        rewrite Nat2Z.inj_succ, Z.pow_succ_r by lia. lia. }
      exists (S k). split; [lia|].
      by rewrite <- !app_assoc.
Qed.

(** [getStackBuffer] returns a whole dump, never a truncated one: when
    the dumps of the host stay below [64 KiB * 2^m], the loop ends
    after at most [m] doublings of the buffer, and its result is the
    dump of its last call of [runtime.Stack]. *)
Theorem getStackBuffer_whole_dump (host : Host) (fuel : nat) (all : bool)
    (tr : list event) (m : nat) :
  (∀ tr', Z.of_nat (Strings.len (runtime_Stack host all tr'))
          < _defaultBufferSize * 2 ^ Z.of_nat m) →
  (m < fuel)%nat →
  ∃ k, (k ≤ m)%nat
       ∧ getStackBuffer host fuel all tr
         = (tr ++ replicate (S k) (evStack all),
            Returned (runtime_Stack host all (tr ++ replicate k (evStack all)))).
Proof. intros Hbound Hfuel. by apply getStackBuffer_loop_whole. Qed.

Lemma getStackBuffer_whole_dump_witness :
  ∃ k, (k ≤ 0)%nat
       ∧ getStackBuffer host_one_goroutine 1 true []
         = ([] ++ replicate (S k) (evStack true),
            Returned (runtime_Stack host_one_goroutine true
                        ([] ++ replicate k (evStack true)))).
Proof.
  apply (getStackBuffer_whole_dump host_one_goroutine 1 true [] 0); [|lia].
  intros tr'. vm_compute. reflexivity.
Defined.

Lemma filterStacks_sublist (stacks : list Stack) (skipID : Z) (o : opts) :
  sublist (filterStacks stacks skipID o) stacks.
Proof.
  unfold filterStacks. induction stacks as [|s stacks IH]; cbn [List.filter]; [done|].
  destruct (_ && _); by constructor.
Qed.

(** [filterStacks] keeps, in their order, exactly the stacks that are
    neither the stack of the goroutine to skip nor matched by a
    filter of the options; filtering its result again changes
    nothing. *)
Theorem filterStacks_keeps_the_others (stacks : list Stack) (skipID : Z) (o : opts) :
  (∀ s, s ∈ filterStacks stacks skipID o
        ↔ s ∈ stacks ∧ ID s ≠ skipID ∧ opts_filter o s = false)
  ∧ sublist (filterStacks stacks skipID o) stacks
  ∧ filterStacks (filterStacks stacks skipID o) skipID o = filterStacks stacks skipID o.
Proof.
  split; [|split; [apply filterStacks_sublist|]].
  - intros s. unfold filterStacks. rewrite !list_elem_of_In, filter_In.
    rewrite andb_true_iff, !negb_true_iff, Z.eqb_neq. tauto.
  - unfold filterStacks. induction stacks as [|s stacks IH]; cbn [List.filter]; [done|].
    destruct (negb (ID s =? skipID) && negb (opts_filter o s)) eqn:E; [|done].
    cbn [List.filter]. by rewrite E, IH.
Qed.

(** ** The detection loop *)

Lemma retries_app (a b : list event) : retries (a ++ b) = retries a ++ retries b.
Proof. apply omap_app. Qed.

Lemma retries_samples (k : nat) (all : bool) : retries (replicate k (evStack all)) = [].
Proof. induction k as [|k IH]; [done|]. exact IH. Qed.

Lemma getStacks_trace (host : Host) (fuel : nat) (all : bool) (tr : list event) :
  ∃ k, fst (getStacks host fuel all tr) = tr ++ replicate k (evStack all).
Proof.
  destruct (getStackBuffer_loop_trace host fuel _defaultBufferSize all tr) as [k Hk].
  exists k. unfold getStacks, getStackBuffer, bind.
  destruct (getStackBuffer_loop _ _ _ _ _) as [tr' [trace|msg|]]; cbn [fst] in *; try done.
  by destruct (ParseStack trace) as [[sts [e|]]|].
Qed.

Lemma Current_retries (host : Host) (fuel : nat) (tr : list event) :
  retries (fst (Current host fuel tr)) = retries tr.
Proof.
  destruct (getStacks_trace host fuel false tr) as [k Hk].
  unfold Current, bind. destruct (getStacks host fuel false tr) as [tr' [sts|msg|]];
    cbn [fst] in *; subst tr'; [destruct sts| |]; unfold ret, panic;
    cbn [fst]; by rewrite retries_app, retries_samples, app_nil_r.
Qed.

Lemma Find_loop_protocol (host : Host) (o : opts) (cur : Z) (fuel : nat) :
  ∀ (i : nat) (tr tr' : list event) (r : option (list Stack)),
    Find_loop host fuel o cur i tr = (tr', Returned r) →
    ∃ n, retries tr' = retries tr ++ seq i n
         ∧ match r with
           | None => ∀ k, (k < n)%nat → retryPolicy o (i + k) = true
           | Some stacks =>
               stacks ≠ []
               ∧ ∃ n', n = S n' ∧ retryPolicy o (i + n') = false
                       ∧ ∀ k, (k < n')%nat → retryPolicy o (i + k) = true
           end.
Proof.
  induction fuel as [|fuel IH]; intros i tr tr' r; [discriminate|].
  cbn [Find_loop]. unfold bind, All.
  destruct (getStacks_trace host (S fuel) true tr) as [k Hk].
  destruct (getStacks host (S fuel) true tr) as [tr1 [all|msg|]]; cbn [fst] in Hk;
    [|discriminate..]. subst tr1.
  destruct (filterStacks all cur o) as [|s stacks] eqn:Ef.
  - intros [= <- <-]. exists O. cbn [seq].
    rewrite retries_app, retries_samples, !app_nil_r. split; [done|]. intros; lia.
  - unfold opts_retry. destruct (retryPolicy o i) eqn:Ei.
    + intros H. destruct (IH _ _ _ _ H) as (n & Hn & Hr). exists (S n). split.
      * rewrite Hn, !retries_app, retries_samples, app_nil_r. cbn [seq].
        by rewrite <- app_assoc.
      * destruct r as [stacks'|].
        -- destruct Hr as (Hne & n' & -> & Hlast & Hbefore). split; [done|].
           exists (S n'). split; [done|].
           split; [by rewrite <- Nat.add_succ_comm|].
           intros [|j] Hj; [by rewrite Nat.add_0_r|].
           rewrite <- Nat.add_succ_comm. apply Hbefore. lia.
        -- intros [|j] Hj; [by rewrite Nat.add_0_r|].
           rewrite <- Nat.add_succ_comm. apply Hr. lia.
    + intros [= <- <-]. exists 1%nat. split.
      * by rewrite !retries_app, retries_samples, app_nil_r.
      * split; [done|]. exists O. split; [done|].
        split; [by rewrite Nat.add_0_r|]. intros; lia.
Qed.

(** [Find], when it returns without the configuration error: the retry
    policy was consulted with the attempts 0, 1, 2, ... in this order,
    each time after a sample that showed a leak; [Find] returns an
    error only when the policy refused the last of them and accepted
    all before, and nil only when the policy accepted all of them. *)
Theorem Find_retry_protocol (host : Host) (defaults : opts) (fuel : nat)
    (options : list Option) (tr : list event) (r : option error) :
  cleanup (buildOpts defaults options) = None →
  Find host defaults fuel options [] = (tr, Returned r) →
  ∃ n, retries tr = seq 0 n
       ∧ match r with
         | None => ∀ k, (k < n)%nat → retryPolicy (buildOpts defaults options) k = true
         | Some _ =>
             ∃ n', n = S n' ∧ retryPolicy (buildOpts defaults options) n' = false
                   ∧ ∀ k, (k < n')%nat → retryPolicy (buildOpts defaults options) k = true
         end.
Proof.
  intros Hclean. unfold Find. unfold bind at 1.
  pose proof (Current_retries host fuel []) as Hcur.
  destruct (Current host fuel []) as [tr0 [cur|msg|]]; cbn [fst] in Hcur; [|discriminate..].
  rewrite Hclean. unfold bind.
  destruct (Find_loop host fuel (buildOpts defaults options) (ID cur) 0 tr0)
    as [tr1 [r1|msg|]] eqn:Eloop; [|discriminate..].
  apply Find_loop_protocol in Eloop as (n & Hn & Hr). rewrite Hcur in Hn. cbn in Hn.
  destruct r1 as [stacks|]; intros [= <- <-]; exists n; (split; [done|]).
  - by destruct Hr as (_ & Hr).
  - done.
Qed.

Lemma Find_retry_protocol_witness :
  ∃ n, retries [evStack false; evStack true; evRetry 0] = seq 0 n
       ∧ ∃ n', n = S n' ∧ retryPolicy (buildOpts defaults_plain []) n' = false
               ∧ ∀ k, (k < n')%nat → retryPolicy (buildOpts defaults_plain []) k = true.
Proof.
  apply (Find_retry_protocol
           {| runtime_Stack := fun all _ => if all then dump_spawn else dump_one_frame |}
           defaults_plain 5 [] [evStack false; evStack true; evRetry 0]
           (Some (errFormat ("found unexpected goroutines:" +:+ nl +:+
                             Stacks_String (tl (stacksOf dump_spawn)))))).
  - reflexivity.
  - vm_compute. reflexivity.
Defined.

(** ** The two entry points *)

Lemma neutral_ret {A : Type} (a : A) : neutral (ret a).
Proof. done. Qed.

Lemma neutral_foldl {A B : Type} (f : M A → B → M A) (l : list B) (acc : M A) :
  (∀ m b, neutral m → neutral (f m b)) → neutral acc → neutral (foldl f acc l).
Proof.
  intros Hf. revert acc. induction l as [|b l IH]; intros acc Hacc; [done|].
  cbn [foldl]. by apply IH, Hf.
Qed.

(** [Find] and [FindAndPrettyPrint] do the same to the world and agree
    on whether there is a leak: their traces of samples and retries
    are equal, one returns nil exactly when the other does, an error
    of [FindAndPrettyPrint] is an error of [Find], and where [Find]
    panics or does not end so does [FindAndPrettyPrint].  The check
    [len(stacks) == 0] after the loop of [FindAndPrettyPrint] never
    holds. *)
Theorem Find_and_FindAndPrettyPrint_agree
    (host : Host) (Colors : aurora) (TrimSpace Sprintf0 : string → string)
    (defaults : opts) (ρ : MapOrder) (fuel : nat) (options : list Option)
    (tr : list event) :
  let plain := Find host defaults fuel options tr in
  let fancy := FindAndPrettyPrint host Colors TrimSpace Sprintf0 defaults ρ fuel options tr in
  fst fancy = fst plain
  ∧ (snd plain = Returned None ↔ snd fancy = Returned None)
  ∧ (∀ e, snd fancy = Returned (Some e) → ∃ e', snd plain = Returned (Some e'))
  ∧ (∀ msg, snd plain = Panicked msg → snd fancy = Panicked msg)
  ∧ (snd plain = OutOfFuel → snd fancy = OutOfFuel).
Proof.
  cbv zeta. unfold Find, FindAndPrettyPrint, bind.
  destruct (Current host fuel tr) as [tr0 [cur|msg|]];
    [|(repeat split; eauto; discriminate)..].
  destruct (cleanup (buildOpts defaults options));
    [repeat split; eauto; discriminate|].
  destruct (Find_loop host fuel (buildOpts defaults options) (ID cur) 0 tr0)
    as [tr1 [r|msg|]] eqn:Eloop; [|(repeat split; eauto; discriminate)..].
  destruct r as [stacks|]; [|repeat split; eauto; discriminate].
  apply Find_loop_protocol in Eloop as (_ & _ & Hne & _).
  destruct stacks as [|s stacks]; [done|]. clear Hne.
  match goal with
  | |- context [foldl ?f ?acc ?l tr1] =>
      assert (Hfold : fst (foldl f acc l tr1) = tr1);
      [|destruct (foldl f acc l tr1) as [tr2 [[[dependency defs] sb]|msg|]]]
  end.
  { apply neutral_foldl; [|apply neutral_ret].
    intros m b Hm tr'. specialize (Hm tr').
    destruct (m tr') as [tr2 [[[dependency defs] sb]|msg|]]; cbn [fst] in *; subst;
      [|done..].
    unfold lift. by destruct (PrettyPrint Colors TrimSpace b _). }
  - cbn [fst] in Hfold. subst tr2.
    destruct (PrintGraph ρ fuel _ _ defs); cbn [ret diverge fst snd];
      repeat split; try discriminate; eauto.
  - cbn [fst] in Hfold. subst tr2. cbn [ret fst snd].
    repeat split; try discriminate; eauto.
  - cbn [fst] in Hfold. subst tr2. cbn [ret fst snd].
    repeat split; try discriminate; eauto.
Qed.
